(** * image_encryptor: passphrase-seeded permutation and keystream XOR

    A shallow embedding of [image_encryptor.py] together with the parts of
    its libraries that decide what it computes: SHA-256 ([hashlib]), the
    legacy [numpy.random.RandomState] operations [permutation] and
    [randint], numpy's integer-array indexing, and the file boundary of
    OpenCV's [imread]/[imwrite]. *)

From Stdlib Require Import ZArith String Ascii.
From stdpp Require Import base list gmap.

Local Open Scope Z_scope.

(** ** Results of Python calls

    A call either returns a value or raises; the exceptions are the ones
    that the calls of the program can raise.  [MemoryFault] is not a Python
    exception: it stands for C code of a library leaving its defined
    behaviour. *)

Inductive exn : Type :=
  | UnicodeEncodeError
  | ValueError
  | IndexError
  | FileNotFoundError
  | FileExistsError
  | cv2_error
  | MemoryFault.

Inductive result (A : Type) : Type :=
  | Ok (a : A)
  | Raise (e : exn).

Arguments Ok {A} a.
Arguments Raise {A} e.

#[global] Instance result_ret : MRet result := fun _ a => Ok a.
#[global] Instance result_bind : MBind result := fun _ _ f m =>
  match m with
  | Ok a => f a
  | Raise e => Raise e
  end.
#[global] Instance result_fmap : FMap result := fun _ _ f m =>
  match m with
  | Ok a => Ok (f a)
  | Raise e => Raise e
  end.

(** [mapR f l] runs [f] over [l] from left to right and stops at the first
    exception. *)
Fixpoint mapR {A B : Type} (f : A -> result B) (l : list A) : result (list B) :=
  match l with
  | [] => Ok []
  | x :: l' => y ← f x; ys ← mapR f l'; Ok (y :: ys)
  end.

(** ** Strings and bytes

    A Python [str] is a sequence of code points; a [bytes] object or a
    [uint8] array is a sequence of integers in [0, 256). *)

Definition str : Type := list Z.
Definition bytes : Type := list Z.

Definition is_byte (b : Z) : Prop := 0 <= b < 256.

(** A literal of the program, read as its code points. *)
Definition lit (s : string) : str :=
  map (fun c => Z.of_N (N_of_ascii c)) (list_ascii_of_string s).

Definition is_surrogate (c : Z) : bool := (0xD800 <=? c) && (c <=? 0xDFFF).

(** Code points that a [str] can hold, and those among them that are
    Unicode scalar values, that is text. *)
Definition code_point (c : Z) : Prop := 0 <= c < 0x110000.
Definition scalar_value (c : Z) : Prop := code_point c /\ is_surrogate c = false.
Definition text (s : str) : Prop := Forall scalar_value s.

#[global] Instance scalar_value_dec (c : Z) : Decision (scalar_value c).
Proof. unfold scalar_value, code_point. apply _. Defined.

#[global] Instance text_dec (s : str) : Decision (text s).
Proof. unfold text. apply _. Defined.

(** [str.encode("utf-8")] with the default [errors="strict"]: surrogate
    code points are refused. *)
Definition encode_char (c : Z) : result bytes :=
  if c <? 0x80 then Ok [c]
  else if c <? 0x800 then
    Ok [Z.lor 0xC0 (Z.shiftr c 6); Z.lor 0x80 (Z.land c 0x3F)]
  else if c <? 0x10000 then
    if is_surrogate c then Raise UnicodeEncodeError
    else Ok [Z.lor 0xE0 (Z.shiftr c 12);
             Z.lor 0x80 (Z.land (Z.shiftr c 6) 0x3F);
             Z.lor 0x80 (Z.land c 0x3F)]
  else
    Ok [Z.lor 0xF0 (Z.shiftr c 18);
        Z.lor 0x80 (Z.land (Z.shiftr c 12) 0x3F);
        Z.lor 0x80 (Z.land (Z.shiftr c 6) 0x3F);
        Z.lor 0x80 (Z.land c 0x3F)].

Definition encode_utf8 (s : str) : result bytes :=
  (fun parts => concat parts) <$> mapR encode_char s.

(** [int.from_bytes(b, byteorder="big", signed=False)] *)
Definition int_from_bytes_big (b : bytes) : Z :=
  fold_left (fun acc x => acc * 256 + x) b 0.

(** The first eight bytes of a digest read as a big-endian unsigned
    integer of 64 bits, the most significant byte first. *)
Definition big_endian_u64 (d : bytes) : Z :=
  nth 0 d 0 * 2 ^ 56 + nth 1 d 0 * 2 ^ 48 + nth 2 d 0 * 2 ^ 40
  + nth 3 d 0 * 2 ^ 32 + nth 4 d 0 * 2 ^ 24 + nth 5 d 0 * 2 ^ 16
  + nth 6 d 0 * 2 ^ 8 + nth 7 d 0.

(** ** SHA-256 (FIPS 180-4), as [hashlib.sha256(...).digest()] *)

Module SHA256.

Definition w32 (x : Z) : Z := x mod 2 ^ 32.
Definition add32 (x y : Z) : Z := w32 (x + y).
Definition rotr (n x : Z) : Z :=
  Z.lor (Z.shiftr x n) (w32 (Z.shiftl x (32 - n))).
Definition not32 (x : Z) : Z := Z.lxor x 0xFFFFFFFF.

Definition Ch (x y z : Z) : Z := Z.lxor (Z.land x y) (Z.land (not32 x) z).
Definition Maj (x y z : Z) : Z :=
  Z.lxor (Z.lxor (Z.land x y) (Z.land x z)) (Z.land y z).
Definition Sigma0 (x : Z) : Z := Z.lxor (Z.lxor (rotr 2 x) (rotr 13 x)) (rotr 22 x).
Definition Sigma1 (x : Z) : Z := Z.lxor (Z.lxor (rotr 6 x) (rotr 11 x)) (rotr 25 x).
Definition sigma0 (x : Z) : Z := Z.lxor (Z.lxor (rotr 7 x) (rotr 18 x)) (Z.shiftr x 3).
Definition sigma1 (x : Z) : Z := Z.lxor (Z.lxor (rotr 17 x) (rotr 19 x)) (Z.shiftr x 10).

(** The constants are fractional parts of roots of the first primes, cut
    to 32 bits: of the cube roots of the first sixty-four for [K], of the
    square roots of the first eight for [H0]. *)
Definition is_prime (n : Z) : bool :=
  forallb (fun d => negb (n mod d =? 0))
          (map Z.of_nat (seq 2 (Z.to_nat n - 2))).

Definition primes (count : nat) : list Z :=
  take count (List.filter is_prime (map Z.of_nat (seq 2 310))).

(** The integer cube root, by bisection of [lo, hi). *)
Fixpoint bisect (fuel : nat) (x lo hi : Z) : Z :=
  match fuel with
  | O => lo
  | S fuel' =>
      let mid := (lo + hi) / 2 in
      if mid * mid * mid <=? x then bisect fuel' x mid hi
      else bisect fuel' x lo mid
  end.

Definition cbrt (x : Z) : Z := bisect 40 x 0 (2 ^ 36).

Definition K : list Z :=
  Eval vm_compute in map (fun p => w32 (cbrt (p * 2 ^ 96))) (primes 64).

Definition H0 : list Z :=
  Eval vm_compute in map (fun p => w32 (Z.sqrt (p * 2 ^ 64))) (primes 8).

(** Padding: a 1 bit, zeros up to 56 modulo 64 bytes, then the length in
    bits as 8 big-endian bytes. *)
Definition be_bytes (width : nat) (x : Z) : bytes :=
  map (fun i => Z.shiftr x (8 * Z.of_nat i) mod 256) (rev (seq 0 width)).

Definition pad (msg : bytes) : bytes :=
  let len := Z.of_nat (length msg) in
  let zeros := Z.to_nat ((55 - len) mod 64) in
  msg ++ [0x80] ++ replicate zeros 0 ++ be_bytes 8 (8 * len).

Definition word_of_bytes (b : bytes) : Z := int_from_bytes_big b.

Fixpoint chunks (k : nat) (fuel : nat) (l : bytes) : list bytes :=
  match fuel with
  | O => []
  | S fuel' =>
      match l with
      | [] => []
      | _ => take k l :: chunks k fuel' (drop k l)
      end
  end.

Definition words (block : bytes) : list Z :=
  map word_of_bytes (chunks 4 16 block).

(** Message schedule: sixteen words of the block, then forty-eight derived
    ones. *)
Fixpoint schedule (count : nat) (w : list Z) : list Z :=
  match count with
  | O => w
  | S count' =>
      let t := length w in
      let at_ (d : nat) := nth (t - d) w 0 in
      schedule count'
        (w ++ [add32 (add32 (sigma1 (at_ 2%nat)) (at_ 7%nat))
                     (add32 (sigma0 (at_ 15%nat)) (at_ 16%nat))])
  end.

Record regs : Type := Regs { ra : Z; rb : Z; rc : Z; rd : Z;
                             re : Z; rf : Z; rg : Z; rh : Z }.

Definition round (r : regs) (kw : Z * Z) : regs :=
  let '(k, w) := kw in
  let t1 := add32 (add32 (add32 (rh r) (Sigma1 (re r)))
                         (add32 (Ch (re r) (rf r) (rg r)) k)) w in
  let t2 := add32 (Sigma0 (ra r)) (Maj (ra r) (rb r) (rc r)) in
  Regs (add32 t1 t2) (ra r) (rb r) (rc r) (add32 (rd r) t1) (re r) (rf r) (rg r).

Definition regs_of (h : list Z) : regs :=
  Regs (nth 0 h 0) (nth 1 h 0) (nth 2 h 0) (nth 3 h 0)
       (nth 4 h 0) (nth 5 h 0) (nth 6 h 0) (nth 7 h 0).

Definition list_of (r : regs) : list Z :=
  [ra r; rb r; rc r; rd r; re r; rf r; rg r; rh r].

Definition compress (h : list Z) (block : bytes) : list Z :=
  let w := schedule 48 (words block) in
  let r := fold_left round (zip K w) (regs_of h) in
  zip_with add32 h (list_of r).

Definition hash_words (msg : bytes) : list Z :=
  let p := pad msg in
  fold_left compress (chunks 64 (length p) p) H0.

Definition digest (msg : bytes) : bytes :=
  concat (map (be_bytes 4) (hash_words msg)).

End SHA256.

(** ** Key to seed *)

(** [sha256_to_int(s, salt)] *)
Definition sha256_to_int (s : str) (salt : str) : result Z :=
  encoded ← encode_utf8 (salt ++ s);
  let h := SHA256.digest encoded in
  Ok (int_from_bytes_big (take 8 h)).

(** ** The generator behind [numpy.random.RandomState]

    numpy's sampling code is written against a bit generator: a state, a
    way to seed it, and a draw of 32 bits.  [random_interval max] draws an
    integer of [0, max] by rejection; its loop has no bound of its own, so
    the interface carries it as an operation, with the range of its result
    as its law. *)

Class BitGenerator : Type := {
  bitgen_state : Type;
  bitgen_seed : Z -> bitgen_state;
  next_uint32 : bitgen_state -> Z * bitgen_state;
  random_interval : Z -> bitgen_state -> Z * bitgen_state;
}.

Class BitGeneratorLaws (G : BitGenerator) : Prop := {
  random_interval_range :
    forall (max : Z) (st : bitgen_state),
      0 <= max -> 0 <= (random_interval max st).1 <= max;
}.

(** *** MT19937, the generator of [RandomState] *)

Module MT19937.

Definition N : nat := 624.
Definition M : nat := 397.
Definition MATRIX_A : Z := 0x9908b0df.
Definition UPPER_MASK : Z := 0x80000000.
Definition LOWER_MASK : Z := 0x7fffffff.

Record state : Type := State { key : list Z; pos : nat }.

(** [mt19937_seed] *)
Fixpoint init_key (count : nat) (p : Z) (seed : Z) : list Z :=
  match count with
  | O => []
  | S count' =>
      seed :: init_key count' (p + 1)
                (Z.land (1812433253 * Z.lxor seed (Z.shiftr seed 30) + p + 1)
                        0xffffffff)
  end.

Definition seed (s : Z) : state :=
  State (init_key N 0 (Z.land s 0xffffffff)) N.

(** [mt19937_gen]: the key is rewritten in place, word after word. *)
Definition twist (k : list Z) (i : nat) : list Z :=
  let y := Z.lor (Z.land (nth i k 0) UPPER_MASK)
                 (Z.land (nth ((i + 1) mod N) k 0) LOWER_MASK) in
  let mag := if Z.odd y then MATRIX_A else 0 in
  <[i := Z.lxor (Z.lxor (nth ((i + M) mod N) k 0) (Z.shiftr y 1)) mag]> k.

Definition gen (k : list Z) : list Z := fold_left twist (seq 0 N) k.

Definition temper (y : Z) : Z :=
  let y := Z.lxor y (Z.shiftr y 11) in
  let y := Z.lxor y (Z.land (Z.shiftl y 7) 0x9d2c5680) in
  let y := Z.lxor y (Z.land (Z.shiftl y 15) 0xefc60000) in
  Z.lxor y (Z.shiftr y 18).

(** [mt19937_next] *)
Definition next (st : state) : Z * state :=
  let st := if Nat.eqb (pos st) N then State (gen (key st)) 0 else st in
  (temper (nth (pos st) (key st) 0), State (key st) (S (pos st))).

(** [mt19937_next64] *)
Definition next64 (st : state) : Z * state :=
  let '(hi, st) := next st in
  let '(lo, st) := next st in
  (Z.lor (Z.shiftl hi 32) lo, st).

(** The smallest bit mask that covers [max]. *)
Definition mask_of (max : Z) : Z :=
  fold_left (fun m s => Z.lor m (Z.shiftr m s)) [1; 2; 4; 8; 16; 32] max.

(** The rejection loop of [random_interval]: draw, mask, and draw again
    while the masked value exceeds [max].  [None] when [fuel] draws were
    all rejected. *)
Fixpoint interval_loop (fuel : nat) (draw : state -> Z * state)
    (mask max : Z) (st : state) : option (Z * state) :=
  match fuel with
  | O => None
  | S fuel' =>
      let '(y, st') := draw st in
      let value := Z.land y mask in
      if value <=? max then Some (value, st')
      else interval_loop fuel' draw mask max st'
  end.

Definition interval_fuel (fuel : nat) (max : Z) (st : state)
  : option (Z * state) :=
  if max =? 0 then Some (0, st)
  else
    interval_loop fuel (if max <=? 0xffffffff then next else next64)
                  (mask_of max) max st.

(** A draw is accepted with probability above one half, so a run of
    rejections of this length is not met; the operation of the interface
    stops there with 0. *)
Definition interval_draws : nat := 4096.

Definition interval (max : Z) (st : state) : Z * state :=
  default (0, st) (interval_fuel interval_draws max st).

End MT19937.

#[global] Instance mt19937 : BitGenerator := {|
  bitgen_state := MT19937.state;
  bitgen_seed := MT19937.seed;
  next_uint32 := MT19937.next;
  random_interval := MT19937.interval;
|}.

(** ** numpy operations used by the program *)

Section Numpy.

Context {G : BitGenerator}.

(** [np.random.RandomState(seed)] for an integer seed *)
Definition RandomState (seed : Z) : result bitgen_state :=
  if (0 <=? seed) && (seed <=? 2 ^ 32 - 1) then Ok (bitgen_seed seed)
  else Raise ValueError.

(** [np.arange(n, dtype=np.int64)] *)
Definition arange (n : nat) : list Z := map Z.of_nat (seq 0 n).

(** The three copies of [_shuffle_raw] that exchange [data[i]] and
    [data[j]].  The C code does not check [j]; a copy outside the buffer
    has no defined behaviour, which is [MemoryFault] here. *)
Definition swap (data : list Z) (i : nat) (j : Z) : result (list Z) :=
  if 0 <=? j then
    match data !! i, data !! Z.to_nat j with
    | Some x, Some y => Ok (<[i := y]> (<[Z.to_nat j := x]> data))
    | _, _ => Raise MemoryFault
    end
  else Raise MemoryFault.

(** [_shuffle_raw]: [for i in reversed(range(1, n))], with [i] the index
    the loop is at. *)
Fixpoint shuffle_raw (i : nat) (data : list Z) (st : bitgen_state)
  : result (list Z * bitgen_state) :=
  match i with
  | O => Ok (data, st)
  | S i' =>
      let '(j, st') := random_interval (Z.of_nat i) st in
      data' ← swap data i j;
      shuffle_raw i' data' st'
  end.

(** [RandomState.shuffle(x)] on a one-dimensional array *)
Definition rs_shuffle (x : list Z) (st : bitgen_state)
  : result (list Z * bitgen_state) :=
  shuffle_raw (length x - 1) x st.

(** [RandomState.permutation(n)] for an integer [n] *)
Definition rs_permutation (n : nat) (st : bitgen_state)
  : result (list Z * bitgen_state) :=
  rs_shuffle (arange n) st.

(** [buffered_uint8]: one draw of 32 bits serves four bytes, lowest byte
    first. *)
Definition buffered_uint8 (bcnt : nat) (buf : Z) (st : bitgen_state)
  : Z * (nat * Z * bitgen_state) :=
  match bcnt with
  | O => let '(y, st') := next_uint32 st in (y mod 256, (3%nat, y, st'))
  | S bcnt' => let buf' := Z.shiftr buf 8 in (buf' mod 256, (bcnt', buf', st))
  end.

(** [random_bounded_uint8_fill] with [off = 0] and [rng = 0xFF] *)
Fixpoint uint8_fill (cnt : nat) (bcnt : nat) (buf : Z) (st : bitgen_state)
  : list Z * bitgen_state :=
  match cnt with
  | O => ([], st)
  | S cnt' =>
      let '(b, (bcnt', buf', st')) := buffered_uint8 bcnt buf st in
      let '(rest, st'') := uint8_fill cnt' bcnt' buf' st' in
      (b :: rest, st'')
  end.

(** [RandomState.randint(0, 256, size=n, dtype=np.uint8)] *)
Definition rs_randint_uint8 (n : nat) (st : bitgen_state)
  : list Z * bitgen_state :=
  uint8_fill n 0 0 st.

(** An index into an axis of length [n]: negative ones count from the end,
    others are out of bounds. *)
Definition index_of (n : nat) (i : Z) : result nat :=
  if (- Z.of_nat n <=? i) && (i <? Z.of_nat n)
  then Ok (Z.to_nat (if i <? 0 then i + Z.of_nat n else i))
  else Raise IndexError.

(** [arr[idx]] for an integer array [idx] *)
Definition take_idx (arr : list Z) (idx : list Z) : result (list Z) :=
  mapR (fun i =>
          k ← index_of (length arr) i;
          from_option Ok (Raise IndexError) (arr !! k)) idx.

(** Broadcasting a one-dimensional operand to length [m] *)
Definition broadcast (vals : list Z) (m : nat) : result (list Z) :=
  if Nat.eqb (length vals) m then Ok vals
  else match vals with
       | [v] => Ok (replicate m v)
       | _ => Raise ValueError
       end.

(** The stores of [dst[idx] = vals], in order. *)
Definition scatter (dst : list Z) (kvs : list (nat * Z)) : list Z :=
  fold_left (fun d kv => <[kv.1 := kv.2]> d) kvs dst.

(** [dst[idx] = vals]: the indices are checked, then the values are stored
    in order, a later store to the same place winning. *)
Definition put_idx (dst : list Z) (idx vals : list Z) : result (list Z) :=
  ks ← mapR (index_of (length dst)) idx;
  vs ← broadcast vals (length idx);
  Ok (scatter dst (zip ks vs)).

(** [gather arr idx] is what [arr[idx]] holds when every index is in
    bounds and not negative. *)
Definition gather (arr idx : list Z) : list Z :=
  map (fun i => nth (Z.to_nat i) arr 0) idx.

Definition in_bounds (n : nat) (i : Z) : Prop := 0 <= i < Z.of_nat n.

(** [np.bitwise_xor(a, b)] *)
Definition bitwise_xor (a b : list Z) : result (list Z) :=
  if Nat.eqb (length a) (length b) then Ok (zip_with Z.lxor a b)
  else match a, b with
       | [x], _ => Ok (map (Z.lxor x) b)
       | _, [y] => Ok (map (fun x => Z.lxor x y) a)
       | _, _ => Raise ValueError
       end.

(** [np.empty_like(a)]: an array of the length of [a] whose contents are
    whatever the memory holds, [junk]. *)
Definition empty_like (junk : nat -> Z) (a : list Z) : list Z :=
  map junk (seq 0 (length a)).

End Numpy.

(** ** Core algorithms *)

Section Core.

Context {G : BitGenerator}.

(** [generate_permutation(n, key)] *)
Definition generate_permutation (n : nat) (key : str) : result (list Z) :=
  seed ← sha256_to_int key (lit "perm");
  rng ← RandomState (seed mod 2 ^ 32);
  perm ← fst <$> rs_permutation n rng;
  Ok perm.

(** [generate_keystream(n, key)] *)
Definition generate_keystream (n : nat) (key : str) : result (list Z) :=
  seed ← sha256_to_int key (lit "xor");
  rng ← RandomState (seed mod 2 ^ 32);
  Ok (rs_randint_uint8 n rng).1.

(** [encrypt_bytes(arr_bytes, key)] *)
Definition encrypt_bytes (arr_bytes : list Z) (key : str) : result (list Z) :=
  let n := length arr_bytes in
  perm ← generate_permutation n key;
  keystream ← generate_keystream n key;
  permuted ← take_idx arr_bytes perm;
  encrypted ← bitwise_xor permuted keystream;
  Ok encrypted.

(** [decrypt_bytes(enc_bytes, key)]; [junk] is what [np.empty_like] finds
    in memory. *)
Definition decrypt_bytes (junk : nat -> Z) (enc_bytes : list Z) (key : str)
  : result (list Z) :=
  let n := length enc_bytes in
  keystream ← generate_keystream n key;
  permuted ← bitwise_xor enc_bytes keystream;
  perm ← generate_permutation n key;
  inv_perm ← put_idx (empty_like junk perm) perm (arange n);
  original ← take_idx permuted inv_perm;
  Ok original.

End Core.

Section Process.

Context {G : BitGenerator}.

(** *** Generator objects

    [rng = np.random.RandomState(seed)] allocates an object, and
    [rng.permutation] and [rng.randint] change its state.  Here the
    objects of the process are made explicit: a heap of generator states
    by address, which every call receives and returns. *)

Definition heap : Type := list bitgen_state.
Definition proc (A : Type) : Type := heap -> result (A * heap).

Definition new_RandomState (seed : Z) : proc nat :=
  fun h => st ← RandomState seed; Ok (length h, h ++ [st]).

Definition method {A : Type}
    (m : bitgen_state -> result (A * bitgen_state)) (rng : nat) : proc A :=
  fun h =>
    match h !! rng with
    | Some st => r ← m st; Ok (r.1, <[rng := r.2]> h)
    | None => Raise MemoryFault
    end.

Definition generate_permutation_in (n : nat) (key : str) : proc (list Z) :=
  fun h =>
    seed ← sha256_to_int key (lit "perm");
    r ← new_RandomState (seed mod 2 ^ 32) h;
    method (rs_permutation n) r.1 r.2.

Definition generate_keystream_in (n : nat) (key : str) : proc (list Z) :=
  fun h =>
    seed ← sha256_to_int key (lit "xor");
    r ← new_RandomState (seed mod 2 ^ 32) h;
    method (fun st => Ok (rs_randint_uint8 n st)) r.1 r.2.

(** Two calls of [m] in a row: the second starts from the heap that the
    first leaves. *)
Definition call_twice {A : Type} (m : proc A) : proc (A * A) :=
  fun h => r1 ← m h; r2 ← m r1.2; Ok ((r1.1, r2.1), r2.2).

End Process.

(** *** The core once the seeds are known

    [generate_permutation] and [generate_keystream] from their second
    line on, as functions of the 64-bit seed, and [encrypt_bytes] and
    [decrypt_bytes] with the two seeds in place of the key. *)

Section FromSeeds.

Context {G : BitGenerator}.

Definition permutation_of_seed (seed : Z) (n : nat) : result (list Z) :=
  rng ← RandomState (seed mod 2 ^ 32);
  perm ← fst <$> rs_permutation n rng;
  Ok perm.

Definition keystream_of_seed (seed : Z) (n : nat) : result (list Z) :=
  rng ← RandomState (seed mod 2 ^ 32);
  Ok (rs_randint_uint8 n rng).1.

Definition encrypt_of_seeds (perm_seed xor_seed : Z) (arr_bytes : list Z)
  : result (list Z) :=
  let n := length arr_bytes in
  perm ← permutation_of_seed perm_seed n;
  keystream ← keystream_of_seed xor_seed n;
  permuted ← take_idx arr_bytes perm;
  encrypted ← bitwise_xor permuted keystream;
  Ok encrypted.

Definition decrypt_of_seeds (junk : nat -> Z) (perm_seed xor_seed : Z)
    (enc_bytes : list Z) : result (list Z) :=
  let n := length enc_bytes in
  keystream ← keystream_of_seed xor_seed n;
  permuted ← bitwise_xor enc_bytes keystream;
  perm ← permutation_of_seed perm_seed n;
  inv_perm ← put_idx (empty_like junk perm) perm (arange n);
  original ← take_idx permuted inv_perm;
  Ok original.

End FromSeeds.

(** A 4 by 4 single-channel gradient, flattened. *)
Definition gradient : list Z := map (fun i => 16 * Z.of_nat i) (seq 0 16).

(** ** Files and OpenCV

    The file system maps a path to what is stored there.  An image file
    records the codec that wrote it and the image that decoding it gives
    back.

    The model stops short of the libraries in these places.  Images hold
    unsigned integers of 8 or 16 bits; [cv2.imread] also returns arrays
    of floating-point numbers, on which [np.bitwise_xor] raises.  A file
    is known by its path as written: two spellings of one path, or a
    link, are different keys.  Of the writers of [cv2.imwrite] only those
    of [find_encoder] are present, and writing never fails but for a
    missing writer.  [os.makedirs] looks at the directory itself, not at
    the directories above it.  [astype] is left out: elements are kept as
    they are. *)

Inductive dtype : Type := uint8 | uint16.

Record image : Type := Image {
  img_shape : list nat;
  img_dtype : dtype;
  img_flat : list Z;
}.

Inductive codec : Type := PNG | JPEG | BMP | TIFF | WEBP.

(** With the default parameters of [cv2.imwrite], every writer but the
    JPEG one stores the pixels exactly. *)
Definition lossless (c : codec) : bool :=
  match c with
  | JPEG => false
  | _ => true
  end.

Inductive file : Type :=
  | ImageFile (c : codec) (decoded : image)
  | OtherFile (raw : bytes).

Record filesystem : Type := FS {
  files : gmap str file;
  dirs : gset str;
}.

(** A call that reads or writes files: its result and the file system it
    leaves, also when it raises. *)
Definition io (A : Type) : Type := filesystem -> result A * filesystem.

Definition io_ret {A : Type} (a : A) : io A := fun fs => (Ok a, fs).
Definition io_raise {A : Type} (e : exn) : io A := fun fs => (Raise e, fs).
Definition io_lift {A : Type} (r : result A) : io A := fun fs => (r, fs).
Definition io_bind {A B : Type} (m : io A) (f : A -> io B) : io B :=
  fun fs =>
    match m fs with
    | (Ok a, fs') => f a fs'
    | (Raise e, fs') => (Raise e, fs')
    end.

Notation "x ←io m ; k" := (io_bind m (fun x => k))
  (at level 20, m at level 100, k at level 200, right associativity,
   format "x  ←io  m ;  '/' k").

Definition slash : Z := 47.
Definition dot : Z := 46.

(** The part of [s] after the last [c], if [c] occurs. *)
Fixpoint after_last (c : Z) (s : str) : option str :=
  match s with
  | [] => None
  | x :: s' =>
      match after_last c s' with
      | Some r => Some r
      | None => if x =? c then Some s' else None
      end
  end.

Fixpoint lstrip (c : Z) (s : str) : str :=
  match s with
  | [] => []
  | x :: s' => if x =? c then lstrip c s' else s
  end.

Definition rstrip (c : Z) (s : str) : str := rev (lstrip c (rev s)).

(** [os.path.dirname] of [posixpath] *)
Definition dirname (p : str) : str :=
  let head :=
    match after_last slash p with
    | Some r => take (length p - length r) p
    | None => []
    end in
  match rstrip slash head with
  | [] => head
  | stripped => stripped
  end.

Definition is_alnum (c : Z) : bool :=
  ((48 <=? c) && (c <=? 57)) || ((65 <=? c) && (c <=? 90))
  || ((97 <=? c) && (c <=? 122)).

Definition to_lower (c : Z) : Z :=
  if (65 <=? c) && (c <=? 90) then c + 32 else c.

Fixpoint take_while (p : Z -> bool) (s : str) : str :=
  match s with
  | [] => []
  | x :: s' => if p x then x :: take_while p s' else []
  end.

(** The writer that [cv2.imwrite] finds for a file name: by the letters
    and digits after its last dot, whatever their case. *)
Definition find_encoder (path : str) : option codec :=
  ext ← after_last dot path;
  let e := map to_lower (take_while is_alnum ext) in
  if decide (e = lit "png") then Some PNG
  else if decide (e = lit "jpg" \/ e = lit "jpeg" \/ e = lit "jpe") then Some JPEG
  else if decide (e = lit "bmp" \/ e = lit "dib") then Some BMP
  else if decide (e = lit "tif" \/ e = lit "tiff") then Some TIFF
  else if decide (e = lit "webp") then Some WEBP
  else None.

Section Files.

Context {G : BitGenerator}.

(** What decoding gives back after a JPEG encoding of an image. *)
Variable jpeg_recode : image -> image.

(** [cv2.imread(path, cv2.IMREAD_UNCHANGED)]: [None] when there is no
    file at [path] or it does not decode as an image. *)
Definition imread (path : str) (fs : filesystem) : option image :=
  match files fs !! path with
  | Some (ImageFile _ decoded) => Some decoded
  | _ => None
  end.

(** [cv2.imwrite(path, img)] *)
Definition imwrite (path : str) (img : image) : io unit :=
  fun fs =>
    match find_encoder path with
    | None => io_raise cv2_error fs
    | Some c =>
        let decoded := if lossless c then img else jpeg_recode img in
        io_ret () (FS (<[path := ImageFile c decoded]> (files fs)) (dirs fs))
    end.

(** [os.makedirs(d, exist_ok=True)] *)
Definition makedirs (d : str) : io unit :=
  fun fs =>
    match files fs !! d with
    | Some _ => io_raise FileExistsError fs
    | None => io_ret () (FS (files fs) ({[d]} ∪ dirs fs))
    end.

(** [a.reshape(shape)] of a flat array *)
Definition reshape (flat : list Z) (shape : list nat) : result (list Z) :=
  if Nat.eqb (foldr Nat.mul 1%nat shape) (length flat) then Ok flat
  else Raise ValueError.

(** [read_image_as_bytes(path)] *)
Definition read_image_as_bytes (path : str) : io (image * list nat * dtype) :=
  fun fs =>
    match imread path fs with
    | None => io_raise FileNotFoundError fs
    | Some img => io_ret (img, img_shape img, img_dtype img) fs
    end.

(** [save_bytes_as_image(bytes_flat, shape, dtype, out_path)] *)
Definition save_bytes_as_image (bytes_flat : list Z) (shape : list nat)
    (dt : dtype) (out_path : str) : io unit :=
  flat ←io io_lift (reshape bytes_flat shape);
  let img := Image shape dt flat in
  _ ←io makedirs (match dirname out_path with [] => lit "." | d => d end);
  imwrite out_path img.

(** [encrypt_image_file(input_path, output_path, key)] *)
Definition encrypt_image_file (input_path output_path : str) (key : str)
  : io unit :=
  r ←io read_image_as_bytes input_path;
  let '(img, shape, dt) := r in
  let flat := img_flat img in
  enc_flat ←io io_lift (encrypt_bytes flat key);
  save_bytes_as_image enc_flat shape dt output_path.

(** [decrypt_image_file(input_path, output_path, key)] *)
Definition decrypt_image_file (junk : nat -> Z)
    (input_path output_path : str) (key : str) : io unit :=
  r ←io read_image_as_bytes input_path;
  let '(img, shape, dt) := r in
  let flat := img_flat img in
  dec_flat ←io io_lift (decrypt_bytes junk flat key);
  save_bytes_as_image dec_flat shape dt output_path.

End Files.

(** ** Notions used to state further properties *)

(** The string holds a surrogate code point. *)
Definition has_surrogate (s : str) : Prop :=
  Exists (fun c => is_surrogate c = true) s.

(** The directory that [save_bytes_as_image] makes for a path. *)
Definition out_dir (path : str) : str :=
  match dirname path with
  | [] => lit "."
  | d => d
  end.

(** The shape of an array that [cv2.imread] returns accounts for all of
    its elements. *)
Definition well_formed (img : image) : Prop :=
  foldr Nat.mul 1%nat (img_shape img) = length (img_flat img).

(** ** The test helper

    [round_trip_test] makes two temporary files, runs the two file
    operations through them and prints what it finds.  The state of such a
    call is the file system together with the lines printed so far. *)

Definition world : Type := filesystem * list str.
Definition prog (A : Type) : Type := world -> result A * world.

Definition prog_bind {A B : Type} (m : prog A) (f : A -> prog B) : prog B :=
  fun w =>
    match m w with
    | (Ok a, w') => f a w'
    | (Raise e, w') => (Raise e, w')
    end.

Notation "x ←p m ; k" := (prog_bind m (fun x => k))
  (at level 20, m at level 100, k at level 200, right associativity,
   format "x  ←p  m ;  '/' k").

Definition run_io {A : Type} (m : io A) : prog A :=
  fun w => let '(r, fs) := m w.1 in (r, (fs, w.2)).

(** [print(line)] *)
Definition print (line : str) : prog unit :=
  fun w => (Ok (), (w.1, w.2 ++ [line])).

(** [str(b)] for a boolean *)
Definition str_of_bool (b : bool) : str :=
  if b then lit "True" else lit "False".

(** [os.path.join(a, b)] of [posixpath] *)
Definition path_join (a b : str) : str :=
  if from_option (fun c => c =? slash) false (head b) then b
  else match last a with
       | None => a ++ b
       | Some l => if l =? slash then a ++ b else a ++ [slash] ++ b
       end.

Definition TMP_MAX : nat := Z.to_nat 10000.

(** [tempfile._mkstemp_inner]: candidate names are drawn from [names]
    until one is free in [dir]; the file is made, empty, and the rest of
    the names is left for later calls.  Opening in a directory that does
    not exist raises, and so does running out of tries. *)
Fixpoint mkstemp_inner (tries : nat) (dir pre suf : str) (names : list str)
  : io (str * list str) :=
  match tries, names with
  | S tries', name :: rest =>
      fun fs =>
        let file := path_join dir (pre ++ name ++ suf) in
        if decide (dir ∈ dirs fs) then
          match files fs !! file with
          | Some _ => mkstemp_inner tries' dir pre suf rest fs
          | None =>
              if decide (file ∈ dirs fs)
              then mkstemp_inner tries' dir pre suf rest fs
              else (Ok (file, rest),
                    FS (<[file := OtherFile []]> (files fs)) (dirs fs))
          end
        else (Raise FileNotFoundError, fs)
  | _, _ => io_raise FileExistsError
  end.

(** [tempfile.NamedTemporaryFile(suffix=suffix, delete=False).name], in
    the temporary directory [tmpdir] of the process *)
Definition NamedTemporaryFile (tmpdir suffix : str) (names : list str)
  : io (str * list str) :=
  mkstemp_inner TMP_MAX tmpdir (lit "tmp") suffix names.

(** [np.array_equal(a, b)] on what [cv2.imread] returns: [None] makes an
    array without dimensions that holds [None]. *)
Definition array_equal (a b : option image) : bool :=
  match a, b with
  | Some x, Some y =>
      bool_decide (img_shape x = img_shape y /\ img_flat x = img_flat y)
  | None, None => true
  | _, _ => false
  end.

Section Callers.

Context {G : BitGenerator}.

Variable jpeg_recode : image -> image.

(** [round_trip_test(image_path, key)]; [tmpdir] is the temporary
    directory and [names] the names that [tempfile] draws. *)
Definition round_trip_test (tmpdir : str) (names : list str)
    (junk : nat -> Z) (image_path key : str) : prog bool :=
  t1 ←p run_io (NamedTemporaryFile tmpdir (lit ".png") names);
  let enc := t1.1 in
  t2 ←p run_io (NamedTemporaryFile tmpdir (lit ".png") t1.2);
  let dec := t2.1 in
  _ ←p run_io (encrypt_image_file jpeg_recode image_path enc key);
  _ ←p run_io (decrypt_image_file jpeg_recode junk enc dec key);
  fun w =>
    let orig := imread image_path w.1 in
    let got := imread dec w.1 in
    let equal := array_equal orig got in
    (_ ←p print (lit "Round-trip equality: " ++ str_of_bool equal);
     fun w' => (Ok equal, w')) w.

End Callers.

(** A file system for examples: the gradient as a PNG file at "in.png",
    and the directory "/tmp". *)
Definition gradient_image : image := Image [4; 4]%nat uint8 gradient.

Definition sample_fs : filesystem :=
  FS {[lit "in.png" := ImageFile PNG gradient_image]} {[lit "/tmp"]}.

(** * Properties *)

(** Both sides of a disequation of results are evaluated, then compared. *)
Ltac seeds_differ :=
  match goal with
  | |- ?a <> ?b =>
      let x := eval vm_compute in a in
      let y := eval vm_compute in b in
      replace a with x by (vm_compute; reflexivity);
      replace b with y by (vm_compute; reflexivity);
      discriminate
  end.

Ltac solve_text := apply (bool_decide_unpack _); vm_compute; exact I.

(** ** Strings and seeds *)

Lemma text_app (s t : str) : text s -> text t -> text (s ++ t).
Proof. unfold text. intros Hs Ht. apply Forall_app. split; assumption. Qed.

Lemma encode_char_scalar (c : Z) :
  scalar_value c -> exists bs, encode_char c = Ok bs.
Proof.
  intros [_ Hs]. unfold encode_char. rewrite Hs.
  repeat match goal with |- context [if ?b then _ else _] => destruct b end;
    eexists; reflexivity.
Qed.

Lemma encode_char_surrogate (c : Z) :
  is_surrogate c = true -> encode_char c = Raise UnicodeEncodeError.
Proof.
  intros Hs. unfold encode_char. rewrite Hs.
  unfold is_surrogate in Hs. apply andb_true_iff in Hs as [Hlo Hhi].
  apply Z.leb_le in Hlo, Hhi.
  destruct (Z.ltb_spec c 0x80); [lia |].
  destruct (Z.ltb_spec c 0x800); [lia |].
  destruct (Z.ltb_spec c 0x10000); [reflexivity | lia].
Qed.

Lemma encode_utf8_text (s : str) : text s -> exists enc, encode_utf8 s = Ok enc.
Proof.
  unfold encode_utf8. induction 1 as [| c s Hc _ [enc IH]]; simpl.
  - eexists; reflexivity.
  - destruct (encode_char_scalar c Hc) as [bs ->]. simpl.
    destruct (mapR encode_char s) as [parts |]; simpl in *; [| discriminate].
    eexists; reflexivity.
Qed.

Lemma be_bytes_length (w : nat) (x : Z) : length (SHA256.be_bytes w x) = w.
Proof.
  unfold SHA256.be_bytes. rewrite length_map, length_rev. apply length_seq.
Qed.

Lemma be_bytes_range (w : nat) (x : Z) : Forall is_byte (SHA256.be_bytes w x).
Proof.
  unfold SHA256.be_bytes. apply Forall_map, Forall_forall. intros i _.
  unfold is_byte. simpl. apply Z.mod_pos_bound. lia.
Qed.

Lemma compress_length (h : list Z) (block : bytes) :
  length h = 8%nat -> length (SHA256.compress h block) = 8%nat.
Proof.
  intros Hh. unfold SHA256.compress. rewrite length_zip_with, Hh. reflexivity.
Qed.

Lemma hash_words_length (msg : bytes) : length (SHA256.hash_words msg) = 8%nat.
Proof.
  unfold SHA256.hash_words.
  generalize (SHA256.chunks 64 (length (SHA256.pad msg)) (SHA256.pad msg)).
  assert (H : length SHA256.H0 = 8%nat) by reflexivity.
  revert H. generalize SHA256.H0.
  intros h Hh blocks. revert h Hh.
  induction blocks as [| b blocks IH]; intros h Hh; simpl; [exact Hh |].
  apply IH, compress_length, Hh.
Qed.

Lemma digest_length (msg : bytes) : length (SHA256.digest msg) = 32%nat.
Proof.
  unfold SHA256.digest.
  assert (H : forall ws : list Z,
             length (concat (map (SHA256.be_bytes 4) ws)) = (4 * length ws)%nat).
  { induction ws as [| w ws IH]; [reflexivity |].
    cbn [map concat]. rewrite length_app, be_bytes_length, IH. simpl. lia. }
  rewrite H, hash_words_length. reflexivity.
Qed.

Lemma digest_range (msg : bytes) : Forall is_byte (SHA256.digest msg).
Proof.
  unfold SHA256.digest.
  induction (SHA256.hash_words msg) as [| w ws IH]; cbn [map concat].
  - constructor.
  - apply Forall_app. split; [apply be_bytes_range | exact IH].
Qed.

Lemma int_from_bytes_big_take8 (d : bytes) :
  (8 <= length d)%nat -> int_from_bytes_big (take 8 d) = big_endian_u64 d.
Proof.
  intros H.
  destruct d as [| d0 [| d1 [| d2 [| d3 [| d4 [| d5 [| d6 [| d7 d]]]]]]]];
    simpl in H; try lia.
  unfold int_from_bytes_big, big_endian_u64. simpl. lia.
Qed.

Lemma big_endian_u64_range (d : bytes) :
  Forall is_byte d -> 0 <= big_endian_u64 d < 2 ^ 64.
Proof.
  intros H. unfold big_endian_u64.
  assert (Hn : forall i, 0 <= nth i d 0 < 256).
  { intros i. destruct (nth_in_or_default i d 0) as [Hin | ->]; [| lia].
    rewrite Forall_forall in H. apply H, list_elem_of_In, Hin. }
  pose proof (Hn 0%nat). pose proof (Hn 1%nat). pose proof (Hn 2%nat).
  pose proof (Hn 3%nat). pose proof (Hn 4%nat). pose proof (Hn 5%nat).
  pose proof (Hn 6%nat). pose proof (Hn 7%nat). lia.
Qed.

Lemma sha256_to_int_encoded (s salt : str) (enc : bytes) :
  encode_utf8 (salt ++ s) = Ok enc ->
  sha256_to_int s salt = Ok (big_endian_u64 (SHA256.digest enc)).
Proof.
  intros H. unfold sha256_to_int. rewrite H. simpl.
  rewrite int_from_bytes_big_take8; [reflexivity |].
  rewrite digest_length. lia.
Qed.

Lemma sha256_to_int_text (s salt : str) :
  text s -> text salt ->
  exists v, sha256_to_int s salt = Ok v /\ 0 <= v < 2 ^ 64.
Proof.
  intros Hs Ht.
  destruct (encode_utf8_text (salt ++ s) (text_app _ _ Ht Hs)) as [enc He].
  eexists. split; [apply sha256_to_int_encoded, He |].
  apply big_endian_u64_range, digest_range.
Qed.

Lemma text_perm : text (lit "perm").
Proof. apply (bool_decide_unpack _). vm_compute. reflexivity. Qed.

Lemma text_xor : text (lit "xor").
Proof. apply (bool_decide_unpack _). vm_compute. reflexivity. Qed.

(** ** The shuffle yields a permutation *)

Lemma insert_head_Permutation (l : list Z) (j : nat) (x y : Z) :
  l !! j = Some y -> y :: <[j := x]> l ≡ₚ x :: l.
Proof.
  revert j. induction l as [| a l IH]; intros [| j] H; simpl in *;
    try discriminate.
  - injection H as ->. apply perm_swap.
  - rewrite (perm_swap a y), (IH j H). apply perm_swap.
Qed.

Lemma insert_insert_Permutation (l : list Z) (i j : nat) (x y : Z) :
  l !! i = Some x -> l !! j = Some y -> <[i := y]> (<[j := x]> l) ≡ₚ l.
Proof.
  revert i j. induction l as [| a l IH]; intros [| i] [| j] Hi Hj;
    simpl in *; try discriminate.
  - injection Hi as ->. injection Hj as ->. reflexivity.
  - injection Hi as ->. apply insert_head_Permutation, Hj.
  - injection Hj as ->. apply insert_head_Permutation, Hi.
  - apply perm_skip, IH; assumption.
Qed.

Section Shuffle.

Context {G : BitGenerator} {L : BitGeneratorLaws G}.

Lemma swap_ok (data : list Z) (i : nat) (j : Z) :
  (i < length data)%nat -> 0 <= j < Z.of_nat (length data) ->
  exists data', swap data i j = Ok data' /\ data' ≡ₚ data.
Proof.
  intros Hi Hj. unfold swap.
  destruct (Z.leb_spec 0 j); [| lia].
  destruct (lookup_lt_is_Some_2 data i Hi) as [x Hx].
  destruct (lookup_lt_is_Some_2 data (Z.to_nat j)) as [y Hy]; [lia |].
  rewrite Hx, Hy. eexists. split; [reflexivity |].
  apply insert_insert_Permutation; assumption.
Qed.

Lemma shuffle_raw_ok (i : nat) (data : list Z) (st : bitgen_state) :
  (i <= length data - 1)%nat ->
  exists data' st', shuffle_raw i data st = Ok (data', st') /\ data' ≡ₚ data.
Proof.
  revert data st. induction i as [| i IH]; intros data st Hi; simpl.
  - exists data, st. split; reflexivity.
  - pose proof (random_interval_range (Z.of_nat (S i)) st ltac:(lia)) as Hr.
    destruct (random_interval (Z.of_nat (S i)) st) as [j st']. simpl in Hr.
    destruct (swap_ok data (S i) j) as (data' & -> & Hp); [lia | lia |].
    simpl.
    destruct (IH data' st') as (data'' & st'' & -> & Hp').
    { rewrite (Permutation_length Hp). lia. }
    exists data'', st''. split; [reflexivity |].
    etransitivity; eassumption.
Qed.

Lemma rs_permutation_ok (n : nat) (st : bitgen_state) :
  exists p st', rs_permutation n st = Ok (p, st') /\ p ≡ₚ arange n.
Proof. unfold rs_permutation, rs_shuffle. apply shuffle_raw_ok. lia. Qed.

End Shuffle.

Lemma RandomState_low_bits {G : BitGenerator} (seed : Z) :
  RandomState (seed mod 2 ^ 32) = Ok (bitgen_seed (seed mod 2 ^ 32)).
Proof.
  unfold RandomState.
  pose proof (Z.mod_pos_bound seed (2 ^ 32) ltac:(lia)) as [Hlo Hhi].
  destruct (Z.leb_spec 0 (seed mod 2 ^ 32)); [| lia].
  destruct (Z.leb_spec (seed mod 2 ^ 32) (2 ^ 32 - 1)); [reflexivity | lia].
Qed.

Lemma arange_length (n : nat) : length (arange n) = n.
Proof. unfold arange. rewrite length_map. apply length_seq. Qed.

Lemma arange_lookup (n i : nat) :
  (i < n)%nat -> arange n !! i = Some (Z.of_nat i).
Proof.
  intros H. unfold arange. rewrite list_lookup_fmap, lookup_seq_lt by exact H.
  reflexivity.
Qed.

Lemma arange_elem_of (n : nat) (z : Z) :
  z ∈ arange n <-> 0 <= z < Z.of_nat n.
Proof.
  unfold arange. rewrite list_elem_of_fmap. split.
  - intros (i & -> & Hi). apply elem_of_seq in Hi. lia.
  - intros H. exists (Z.to_nat z). split; [lia |]. apply elem_of_seq. lia.
Qed.

Lemma arange_NoDup (n : nat) : NoDup (arange n).
Proof.
  unfold arange. apply NoDup_fmap; [| apply NoDup_seq].
  intros a b. apply Nat2Z.inj.
Qed.

(** ** The keystream *)

Section Keystream.

Context {G : BitGenerator}.

Lemma uint8_fill_length (cnt bcnt : nat) (buf : Z) (st : bitgen_state) :
  length (uint8_fill cnt bcnt buf st).1 = cnt.
Proof.
  revert bcnt buf st. induction cnt as [| cnt IH]; intros bcnt buf st; simpl;
    [reflexivity |].
  destruct (buffered_uint8 bcnt buf st) as [b [[bcnt' buf'] st']].
  specialize (IH bcnt' buf' st').
  destruct (uint8_fill cnt bcnt' buf' st') as [rest st'']. simpl in *.
  congruence.
Qed.

Lemma buffered_uint8_range (bcnt : nat) (buf : Z) (st : bitgen_state) :
  is_byte (buffered_uint8 bcnt buf st).1.
Proof.
  unfold buffered_uint8, is_byte. destruct bcnt.
  - destruct (next_uint32 st) as [y st']. simpl. apply Z.mod_pos_bound. lia.
  - simpl. apply Z.mod_pos_bound. lia.
Qed.

Lemma uint8_fill_range (cnt bcnt : nat) (buf : Z) (st : bitgen_state) :
  Forall is_byte (uint8_fill cnt bcnt buf st).1.
Proof.
  revert bcnt buf st. induction cnt as [| cnt IH]; intros bcnt buf st; simpl;
    [constructor |].
  pose proof (buffered_uint8_range bcnt buf st) as Hb.
  destruct (buffered_uint8 bcnt buf st) as [b [[bcnt' buf'] st']].
  specialize (IH bcnt' buf' st').
  destruct (uint8_fill cnt bcnt' buf' st') as [rest st'']. simpl in *.
  constructor; assumption.
Qed.

Lemma generate_keystream_ok (n : nat) (key : str) :
  text key ->
  exists ks, generate_keystream n key = Ok ks /\ length ks = n
             /\ Forall is_byte ks.
Proof.
  intros Hk. unfold generate_keystream.
  destruct (sha256_to_int_text key (lit "xor") Hk text_xor) as (v & -> & _).
  simpl. rewrite RandomState_low_bits. simpl.
  eexists. split; [reflexivity |]. split.
  - apply uint8_fill_length.
  - apply uint8_fill_range.
Qed.

End Keystream.

Section Permutation.

Context {G : BitGenerator} {L : BitGeneratorLaws G}.

Lemma generate_permutation_ok (n : nat) (key : str) :
  text key ->
  exists p, generate_permutation n key = Ok p /\ p ≡ₚ arange n.
Proof.
  intros Hk. unfold generate_permutation.
  destruct (sha256_to_int_text key (lit "perm") Hk text_perm) as (v & -> & _).
  simpl. rewrite RandomState_low_bits. simpl.
  destruct (rs_permutation_ok n (bitgen_seed (v mod 2 ^ 32)))
    as (p & st' & -> & Hp).
  simpl. exists p. split; [reflexivity | exact Hp].
Qed.

End Permutation.

(** ** Indexing with an integer array *)

Lemma index_of_ok (n : nat) (i : Z) :
  in_bounds n i -> index_of n i = Ok (Z.to_nat i).
Proof.
  unfold in_bounds, index_of. intros H.
  destruct (Z.leb_spec (- Z.of_nat n) i); [| lia].
  destruct (Z.ltb_spec i (Z.of_nat n)); [| lia].
  destruct (Z.ltb_spec i 0); [lia | reflexivity].
Qed.

Lemma mapR_ok {A B : Type} (f : A -> result B) (g : A -> B) (l : list A) :
  Forall (fun x => f x = Ok (g x)) l -> mapR f l = Ok (map g l).
Proof.
  induction 1 as [| x l Hx _ IH]; simpl; [reflexivity |].
  rewrite Hx. simpl. rewrite IH. reflexivity.
Qed.

Lemma take_idx_ok (arr idx : list Z) :
  Forall (in_bounds (length arr)) idx -> take_idx arr idx = Ok (gather arr idx).
Proof.
  intros H. unfold take_idx, gather. apply mapR_ok.
  eapply Forall_impl; [exact H |]. intros i Hi. simpl.
  rewrite (index_of_ok _ _ Hi). simpl.
  destruct (lookup_lt_is_Some_2 arr (Z.to_nat i)) as [x Hx].
  { unfold in_bounds in Hi. lia. }
  rewrite nth_lookup, Hx. reflexivity.
Qed.

Lemma gather_length (arr idx : list Z) : length (gather arr idx) = length idx.
Proof. unfold gather. apply length_map. Qed.

Lemma Permutation_arange_bounds (p : list Z) (n : nat) :
  p ≡ₚ arange n -> Forall (in_bounds n) p.
Proof.
  intros Hp. apply Forall_forall. intros z Hz.
  rewrite Hp in Hz. apply arange_elem_of, Hz.
Qed.

Lemma Permutation_arange_length (p : list Z) (n : nat) :
  p ≡ₚ arange n -> length p = n.
Proof. intros Hp. rewrite (Permutation_length Hp). apply arange_length. Qed.

(** Every place of [0, n) occurs in a permutation of it. *)
Lemma Permutation_arange_onto (p : list Z) (n j : nat) :
  p ≡ₚ arange n -> (j < n)%nat ->
  exists k, (k < n)%nat /\ p !! k = Some (Z.of_nat j).
Proof.
  intros Hp Hj.
  assert (Hin : Z.of_nat j ∈ p) by (rewrite Hp; apply arange_elem_of; lia).
  apply list_elem_of_lookup in Hin as [k Hk]. exists k. split; [| exact Hk].
  apply lookup_lt_Some in Hk. rewrite (Permutation_arange_length p n Hp) in Hk.
  exact Hk.
Qed.

Lemma Permutation_arange_to_nat (p : list Z) (n : nat) :
  p ≡ₚ arange n -> NoDup (map Z.to_nat p).
Proof.
  intros Hp. rewrite Hp. unfold arange. rewrite map_map.
  rewrite (map_ext _ id), map_id; [apply NoDup_seq |].
  intros i. apply Nat2Z.id.
Qed.

Lemma bitwise_xor_ok (a b : list Z) :
  length a = length b -> bitwise_xor a b = Ok (zip_with Z.lxor a b).
Proof. intros H. unfold bitwise_xor. rewrite H, Nat.eqb_refl. reflexivity. Qed.

Lemma zip_with_lxor_cancel (a k : list Z) :
  length a = length k -> zip_with Z.lxor (zip_with Z.lxor a k) k = a.
Proof.
  revert k. induction a as [| x a IH]; intros [| y k] H; simpl in *;
    try discriminate; [reflexivity |].
  rewrite IH by congruence.
  rewrite Z.lxor_assoc, Z.lxor_nilpotent, Z.lxor_0_r. reflexivity.
Qed.

Lemma scatter_length (kvs : list (nat * Z)) (dst : list Z) :
  length (scatter dst kvs) = length dst.
Proof.
  revert dst. induction kvs as [| kv kvs IH]; intros dst; simpl;
    [reflexivity |].
  rewrite IH. apply length_insert.
Qed.

Lemma scatter_lookup_other (kvs : list (nat * Z)) (dst : list Z) (j : nat) :
  j ∉ kvs.*1 -> scatter dst kvs !! j = dst !! j.
Proof.
  revert dst. induction kvs as [| [k v] kvs IH]; intros dst Hj; simpl in *;
    [reflexivity |].
  apply not_elem_of_cons in Hj as [Hne Hj].
  rewrite IH by exact Hj. apply list_lookup_insert_ne. congruence.
Qed.

Lemma scatter_lookup (ks : list nat) (vs dst : list Z) (k j : nat) (v : Z) :
  NoDup ks -> ks !! k = Some j -> vs !! k = Some v -> (j < length dst)%nat ->
  scatter dst (zip ks vs) !! j = Some v.
Proof.
  revert vs dst k.
  induction ks as [| k0 ks IH]; intros vs dst k Hnd Hk Hv Hj;
    [discriminate |].
  apply NoDup_cons in Hnd as [Hnotin Hnd].
  destruct vs as [| v0 vs]; [discriminate |].
  destruct k as [| k]; simpl in *.
  - injection Hk as ->. injection Hv as ->.
    rewrite scatter_lookup_other.
    + apply list_lookup_insert_eq, Hj.
    + intros Hin. apply Hnotin.
      apply list_elem_of_fmap in Hin as ([a b] & -> & Hin).
      apply elem_of_zip_l in Hin. exact Hin.
  - eapply IH; eauto. rewrite length_insert. exact Hj.
Qed.

Lemma put_idx_inverse (junk : nat -> Z) (p : list Z) (n : nat) :
  p ≡ₚ arange n ->
  exists inv,
    put_idx (empty_like junk p) p (arange n) = Ok inv /\ length inv = n
    /\ forall k j : nat, p !! k = Some (Z.of_nat j) ->
                         inv !! j = Some (Z.of_nat k).
Proof.
  intros Hp. pose proof (Permutation_arange_length p n Hp) as Hlen.
  assert (Hel : length (empty_like junk p) = n).
  { unfold empty_like. rewrite length_map, length_seq. exact Hlen. }
  unfold put_idx. rewrite Hel.
  rewrite (mapR_ok _ Z.to_nat).
  2: { eapply Forall_impl; [apply Permutation_arange_bounds, Hp |].
       intros i Hi. apply index_of_ok, Hi. }
  simpl. unfold broadcast. rewrite arange_length, Hlen, Nat.eqb_refl. simpl.
  eexists. split; [reflexivity |]. split.
  - rewrite scatter_length. exact Hel.
  - intros k j Hk.
    assert (Hkn : (k < n)%nat) by (apply lookup_lt_Some in Hk; lia).
    assert (Hjn : (j < n)%nat).
    { apply list_elem_of_lookup_2 in Hk. rewrite Hp in Hk.
      apply arange_elem_of in Hk. lia. }
    apply (scatter_lookup _ _ _ k).
    + apply (Permutation_arange_to_nat p n Hp).
    + rewrite list_lookup_fmap, Hk. simpl. rewrite Nat2Z.id. reflexivity.
    + apply arange_lookup, Hkn.
    + rewrite Hel. exact Hjn.
Qed.

Lemma gather_inverse (b p inv : list Z) :
  p ≡ₚ arange (length b) -> length inv = length b ->
  (forall k j : nat, p !! k = Some (Z.of_nat j) -> inv !! j = Some (Z.of_nat k)) ->
  take_idx (gather b p) inv = Ok b.
Proof.
  intros Hp Hlen Hinv.
  pose proof (Permutation_arange_length p _ Hp) as Hplen.
  rewrite take_idx_ok.
  - f_equal. apply list_eq. intros j. unfold gather.
    rewrite list_lookup_fmap.
    destruct (decide (j < length b)%nat) as [Hj | Hj].
    + destruct (Permutation_arange_onto p _ j Hp Hj) as (k & Hk & Hpk).
      rewrite (Hinv k j Hpk). simpl. rewrite Nat2Z.id.
      rewrite nth_lookup, list_lookup_fmap, Hpk. simpl.
      rewrite Nat2Z.id, nth_lookup.
      destruct (lookup_lt_is_Some_2 b j Hj) as [x ->]. reflexivity.
    + rewrite (lookup_ge_None_2 inv j), (lookup_ge_None_2 b j) by lia.
      reflexivity.
  - rewrite gather_length, Hplen. apply Forall_lookup. intros j x Hx.
    assert (Hj : (j < length b)%nat) by (apply lookup_lt_Some in Hx; lia).
    destruct (Permutation_arange_onto p _ j Hp Hj) as (k & Hk & Hpk).
    rewrite (Hinv k j Hpk) in Hx. injection Hx as <-.
    unfold in_bounds. lia.
Qed.

(** ** The MT19937 instance meets the law of the interface *)

Lemma mask_fold_nonneg (shifts : list Z) (m : Z) :
  0 <= m -> 0 <= fold_left (fun m s => Z.lor m (Z.shiftr m s)) shifts m.
Proof.
  revert m. induction shifts as [| s shifts IH]; intros m Hm; simpl;
    [exact Hm |].
  apply IH, Z.lor_nonneg. split; [exact Hm |]. apply Z.shiftr_nonneg, Hm.
Qed.

Lemma interval_loop_range (fuel : nat)
    (draw : MT19937.state -> Z * MT19937.state) (mask max : Z)
    (st st' : MT19937.state) (v : Z) :
  0 <= mask ->
  MT19937.interval_loop fuel draw mask max st = Some (v, st') ->
  0 <= v <= max.
Proof.
  intros Hm. revert st. induction fuel as [| fuel IH]; intros st H; simpl in H;
    [discriminate |].
  destruct (draw st) as [y st1].
  destruct (Z.leb_spec (Z.land y mask) max) as [Hle | _].
  - injection H as <- <-. split; [| exact Hle].
    apply Z.land_nonneg. right. exact Hm.
  - eapply IH, H.
Qed.

Lemma interval_range (max : Z) (st : MT19937.state) :
  0 <= max -> 0 <= (MT19937.interval max st).1 <= max.
Proof.
  intros Hmax. unfold MT19937.interval.
  destruct (MT19937.interval_fuel _ max st) as [[v st'] |] eqn:E; simpl;
    [| lia].
  unfold MT19937.interval_fuel in E.
  destruct (Z.eqb_spec max 0) as [-> | _].
  - injection E as <- _. lia.
  - eapply interval_loop_range, E. apply mask_fold_nonneg, Hmax.
Qed.

#[global] Instance mt19937_laws : BitGeneratorLaws mt19937.
Proof. constructor. exact interval_range. Qed.

(** The model against known outputs of the library: the first words of
    the reference generator, and [RandomState(42).permutation(10)] and
    [RandomState(0).randint(0, 256, size=8, dtype=np.uint8)] of numpy. *)
Example mt19937_reference_words :
  let '(a, st) := MT19937.next (MT19937.seed 5489) in
  let '(b, _) := MT19937.next st in
  (a, b) = (3499211612, 581869302).
Proof. vm_compute. reflexivity. Qed.

Example numpy_permutation_seed_42 :
  fst <$> rs_permutation 10 (MT19937.seed 42) = Ok [8; 1; 5; 0; 7; 2; 9; 4; 3; 6].
Proof. vm_compute. reflexivity. Qed.

Example numpy_randint_seed_0 :
  (rs_randint_uint8 8 (MT19937.seed 0)).1 = [172; 10; 127; 140; 47; 170; 196; 151].
Proof. vm_compute. reflexivity. Qed.

(** One generator object moves on from call to call: a second
    [permutation] on it differs from the first. *)
Example rs_permutation_advances :
  (r ← rs_permutation 10 (MT19937.seed 42); fst <$> rs_permutation 10 r.2)
  = Ok [0; 1; 8; 5; 3; 4; 7; 9; 6; 2].
Proof. vm_compute. reflexivity. Qed.

(** ** The transform *)

Section Transform.

Context {G : BitGenerator} {L : BitGeneratorLaws G}.

Lemma encrypt_bytes_ok (b : list Z) (k : str) :
  text k ->
  exists p ks,
    generate_permutation (length b) k = Ok p
    /\ generate_keystream (length b) k = Ok ks
    /\ p ≡ₚ arange (length b) /\ length ks = length b
    /\ encrypt_bytes b k = Ok (zip_with Z.lxor (gather b p) ks).
Proof.
  intros Hk.
  destruct (generate_permutation_ok (length b) k Hk) as (p & Hgp & Hp).
  destruct (generate_keystream_ok (length b) k Hk) as (ks & Hgk & Hks & _).
  exists p, ks. repeat split; try assumption.
  unfold encrypt_bytes. rewrite Hgp, Hgk. simpl.
  rewrite take_idx_ok by (apply Permutation_arange_bounds, Hp). simpl.
  rewrite bitwise_xor_ok; [reflexivity |].
  rewrite gather_length, (Permutation_arange_length p _ Hp), Hks. reflexivity.
Qed.

Lemma decrypt_bytes_ok (junk : nat -> Z) (b p ks : list Z) (k : str) :
  generate_permutation (length b) k = Ok p ->
  generate_keystream (length b) k = Ok ks ->
  p ≡ₚ arange (length b) -> length ks = length b ->
  decrypt_bytes junk (zip_with Z.lxor (gather b p) ks) k = Ok b.
Proof.
  intros Hgp Hgk Hp Hks.
  pose proof (Permutation_arange_length p _ Hp) as Hplen.
  assert (Hlen : length (zip_with Z.lxor (gather b p) ks) = length b).
  { rewrite length_zip_with, gather_length, Hplen, Hks. lia. }
  unfold decrypt_bytes. rewrite Hlen, Hgk. simpl.
  rewrite bitwise_xor_ok by (rewrite Hlen, Hks; reflexivity). simpl.
  rewrite zip_with_lxor_cancel by (rewrite gather_length, Hplen, Hks; reflexivity).
  rewrite Hgp. simpl.
  destruct (put_idx_inverse junk p (length b) Hp) as (inv & -> & Hinv & Hat).
  simpl. rewrite (gather_inverse b p inv Hp Hinv Hat). reflexivity.
Qed.

(** C1, as amended: for every buffer [b] and every passphrase [k] that
    is text (it holds no surrogate code point), empty or not,
    encrypting [b] under [k] returns a buffer, and decrypting that buffer
    under [k] returns [b] itself, byte for byte, whatever the memory that
    [np.empty_like] hands out. *)
Theorem decrypt_encrypt_identity (junk : nat -> Z) (b : list Z) (k : str) :
  text k ->
  exists e, encrypt_bytes b k = Ok e /\ decrypt_bytes junk e k = Ok b.
Proof.
  intros Hk.
  destruct (encrypt_bytes_ok b k Hk) as (p & ks & Hgp & Hgk & Hp & Hks & He).
  eexists. split; [exact He |].
  apply decrypt_bytes_ok; assumption.
Qed.

(** C2, as amended: for every buffer [b] and every passphrase [k] that
    is text, with [pi] the permutation derived under the tag "perm" and
    [ks] the keystream derived under the tag "xor", both of the length of
    the buffer, [encrypt_bytes b k] holds at each position [i] the byte of
    [b] at position [pi[i]] XORed with [ks[i]]. *)
Theorem encrypt_bytes_positions (b : list Z) (k : str) :
  text k ->
  exists pi ks e,
    generate_permutation (length b) k = Ok pi
    /\ generate_keystream (length b) k = Ok ks
    /\ encrypt_bytes b k = Ok e
    /\ length pi = length b /\ length ks = length b /\ length e = length b
    /\ forall i : nat, (i < length b)%nat ->
         exists j x y,
           pi !! i = Some j /\ b !! Z.to_nat j = Some x /\ 0 <= j
           /\ ks !! i = Some y /\ e !! i = Some (Z.lxor x y).
Proof.
  intros Hk.
  destruct (encrypt_bytes_ok b k Hk) as (p & ks & Hgp & Hgk & Hp & Hks & He).
  pose proof (Permutation_arange_length p _ Hp) as Hplen.
  exists p, ks, (zip_with Z.lxor (gather b p) ks).
  repeat split; try assumption.
  - rewrite length_zip_with, gather_length, Hplen, Hks. lia.
  - intros i Hi.
    destruct (lookup_lt_is_Some_2 p i) as [j Hj]; [lia |].
    destruct (lookup_lt_is_Some_2 ks i) as [y Hy]; [lia |].
    assert (Hb : in_bounds (length b) j).
    { pose proof (Permutation_arange_bounds p _ Hp) as Hall.
      rewrite Forall_lookup in Hall. eapply Hall, Hj. }
    destruct (lookup_lt_is_Some_2 b (Z.to_nat j)) as [x Hx].
    { unfold in_bounds in Hb. lia. }
    exists j, x, y. repeat split; try assumption; [apply Hb |].
    rewrite lookup_zip_with. unfold gather.
    rewrite list_lookup_fmap, Hj, Hy. simpl.
    rewrite nth_lookup, Hx. reflexivity.
Qed.

(** C4, as amended: for every [n] and every key that is text,
    [generate_permutation] returns a sequence of [n] integers without
    repetition whose members are exactly the integers of [0, n). *)
Theorem generate_permutation_bijection (n : nat) (key : str) :
  text key ->
  exists p,
    generate_permutation n key = Ok p /\ length p = n /\ NoDup p
    /\ forall i : Z, i ∈ p <-> 0 <= i < Z.of_nat n.
Proof.
  intros Hk.
  destruct (generate_permutation_ok n key Hk) as (p & Hgp & Hp).
  exists p. split; [exact Hgp |]. split; [| split].
  - apply Permutation_arange_length, Hp.
  - rewrite Hp. apply arange_NoDup.
  - intros i. rewrite Hp. apply arange_elem_of.
Qed.

(** C8, as amended: for every buffer and every key that is text,
    [encrypt_bytes] returns a buffer of the length of its input; the
    empty buffer is encrypted and decrypted to the empty buffer; and the
    permutation derived for [n = 1] is the identity on one element. *)
Theorem encrypt_bytes_preserves_length (junk : nat -> Z) (b : list Z) (k : str) :
  text k ->
  (exists e, encrypt_bytes b k = Ok e /\ length e = length b)
  /\ encrypt_bytes [] k = Ok []
  /\ decrypt_bytes junk [] k = Ok []
  /\ generate_permutation 1 k = Ok [0].
Proof.
  intros Hk. split; [| split; [| split]].
  - destruct (encrypt_bytes_ok b k Hk) as (p & ks & _ & _ & Hp & Hks & He).
    eexists. split; [exact He |].
    rewrite length_zip_with, gather_length,
      (Permutation_arange_length p _ Hp), Hks. lia.
  - destruct (encrypt_bytes_ok [] k Hk) as (p & ks & _ & _ & Hp & _ & He).
    apply Permutation_nil_r in Hp as ->. exact He.
  - destruct (encrypt_bytes_ok [] k Hk) as (p & ks & Hgp & Hgk & Hp & Hks & _).
    pose proof (decrypt_bytes_ok junk [] p ks k Hgp Hgk Hp Hks) as Hd.
    apply Permutation_nil_r in Hp as ->. exact Hd.
  - destruct (generate_permutation_ok 1 k Hk) as (p & Hgp & Hp).
    apply Permutation_singleton_r in Hp as ->. exact Hgp.
Qed.

End Transform.

(** ** Seeds *)

(** C3, as amended: for every passphrase and tag that are text (no
    surrogate code points), [sha256_to_int] returns, and what it returns
    is the first eight bytes of the SHA-256 digest of the UTF-8 encoding of
    tag followed by passphrase, read as a big-endian unsigned integer of
    64 bits.  The empty passphrase is among them. *)
Theorem sha256_to_int_spec (s t : str) :
  text s -> text t ->
  exists enc,
    encode_utf8 (t ++ s) = Ok enc
    /\ sha256_to_int s t = Ok (big_endian_u64 (SHA256.digest enc))
    /\ 0 <= big_endian_u64 (SHA256.digest enc) < 2 ^ 64.
Proof.
  intros Hs Ht.
  destruct (encode_utf8_text (t ++ s) (text_app _ _ Ht Hs)) as [enc He].
  exists enc. split; [exact He |]. split.
  - apply sha256_to_int_encoded, He.
  - apply big_endian_u64_range, digest_range.
Qed.

Lemma sha256_to_int_spec_witness :
  text [] /\ text (lit "perm")
  /\ exists enc,
       encode_utf8 (lit "perm" ++ []) = Ok enc
       /\ sha256_to_int [] (lit "perm") = Ok (big_endian_u64 (SHA256.digest enc))
       /\ 0 <= big_endian_u64 (SHA256.digest enc) < 2 ^ 64.
Proof.
  split; [solve_text |]. split; [solve_text |].
  apply (sha256_to_int_spec [] (lit "perm")); solve_text.
Defined.

(** C3, as stated, fails: a [str] may hold a lone surrogate, as
    [sys.argv] does for a byte that is not UTF-8, and encoding it
    raises. *)
Lemma sha256_to_int_lone_surrogate :
  Forall code_point [0xDCFF]
  /\ sha256_to_int [0xDCFF] (lit "perm") = Raise UnicodeEncodeError.
Proof.
  split.
  - constructor; [unfold code_point; lia | constructor].
  - vm_compute. reflexivity.
Qed.

(** The models of [str.encode] and of [hashlib.sha256] against the
    library: three characters of two, three and four bytes, and the digest
    of "abc". *)
Example encode_utf8_multibyte :
  encode_utf8 [0xE9; 0x20AC; 0x1F600]
  = Ok [0xC3; 0xA9; 0xE2; 0x82; 0xAC; 0xF0; 0x9F; 0x98; 0x80].
Proof. vm_compute. reflexivity. Qed.

Example sha256_abc :
  int_from_bytes_big (SHA256.digest (lit "abc"))
  = 0xba7816bf8f01cfea414140de5dae2223b00361a396177a9cb410ff61f20015ad.
Proof. vm_compute. reflexivity. Qed.

Example sha256_to_int_key_perm :
  sha256_to_int (lit "key") (lit "perm") = Ok 0x4cf935289bf6af76.
Proof. vm_compute. reflexivity. Qed.

(** C9: for the passphrases of the tests, "key", "abc" and "test123" (and
    "xyz" and the default of the form, "my secret key"), the seed under
    the tag "perm" differs from the seed under the tag "xor". *)
Theorem perm_and_xor_seeds_differ :
  Forall (fun k => sha256_to_int k (lit "perm") <> sha256_to_int k (lit "xor"))
         [lit "key"; lit "abc"; lit "test123"; lit "xyz"; lit "my secret key"].
Proof. repeat constructor; seeds_differ. Qed.

Section Seeds.

Context {G : BitGenerator}.

(** The functions of the program are the functions of the seeds, at the
    seeds of the key. *)
Lemma generate_permutation_of_seed (n : nat) (key : str) (seed : Z) :
  sha256_to_int key (lit "perm") = Ok seed ->
  generate_permutation n key = permutation_of_seed seed n.
Proof. intros H. unfold generate_permutation. rewrite H. reflexivity. Qed.

Lemma generate_keystream_of_seed (n : nat) (key : str) (seed : Z) :
  sha256_to_int key (lit "xor") = Ok seed ->
  generate_keystream n key = keystream_of_seed seed n.
Proof. intros H. unfold generate_keystream. rewrite H. reflexivity. Qed.

Lemma encrypt_bytes_of_seeds (b : list Z) (key : str) (p x : Z) :
  sha256_to_int key (lit "perm") = Ok p ->
  sha256_to_int key (lit "xor") = Ok x ->
  encrypt_bytes b key = encrypt_of_seeds p x b.
Proof.
  intros Hp Hx. unfold encrypt_bytes, encrypt_of_seeds.
  rewrite (generate_permutation_of_seed _ _ _ Hp),
    (generate_keystream_of_seed _ _ _ Hx). reflexivity.
Qed.

Lemma decrypt_bytes_of_seeds (junk : nat -> Z) (b : list Z) (key : str)
    (p x : Z) :
  sha256_to_int key (lit "perm") = Ok p ->
  sha256_to_int key (lit "xor") = Ok x ->
  decrypt_bytes junk b key = decrypt_of_seeds junk p x b.
Proof.
  intros Hp Hx. unfold decrypt_bytes, decrypt_of_seeds.
  rewrite (generate_permutation_of_seed _ _ _ Hp),
    (generate_keystream_of_seed _ _ _ Hx). reflexivity.
Qed.

Lemma permutation_of_seed_low_bits (s1 s2 : Z) (n : nat) :
  s1 mod 2 ^ 32 = s2 mod 2 ^ 32 ->
  permutation_of_seed s1 n = permutation_of_seed s2 n.
Proof. intros H. unfold permutation_of_seed. rewrite H. reflexivity. Qed.

Lemma keystream_of_seed_low_bits (s1 s2 : Z) (n : nat) :
  s1 mod 2 ^ 32 = s2 mod 2 ^ 32 ->
  keystream_of_seed s1 n = keystream_of_seed s2 n.
Proof. intros H. unfold keystream_of_seed. rewrite H. reflexivity. Qed.

(** Adding any multiple of 2^32 to a seed leaves the generator that
    [generate_permutation] and [generate_keystream] build unchanged. *)
Lemma RandomState_upper_bits (seed hi : Z) :
  RandomState ((seed + hi * 2 ^ 32) mod 2 ^ 32) = RandomState (seed mod 2 ^ 32).
Proof. rewrite Z.mod_add by lia. reflexivity. Qed.

(** C10: the transform depends on the 64-bit seeds only through their
    values modulo 2^32.  For perm seeds [p1], [p2] and xor seeds [x1],
    [x2] that agree modulo 2^32, whatever their upper 32 bits, the
    permutation, the keystream and the results of encrypting and
    decrypting are the same for every length and buffer; so for any two
    passphrases whose seeds these are, [generate_permutation],
    [generate_keystream], [encrypt_bytes] and [decrypt_bytes] produce
    identical outputs. *)
Theorem seed_low_32_bits_decide (p1 p2 x1 x2 : Z) :
  p1 mod 2 ^ 32 = p2 mod 2 ^ 32 -> x1 mod 2 ^ 32 = x2 mod 2 ^ 32 ->
  forall (n : nat) (b : list Z) (junk : nat -> Z),
    (permutation_of_seed p1 n = permutation_of_seed p2 n
     /\ keystream_of_seed x1 n = keystream_of_seed x2 n
     /\ encrypt_of_seeds p1 x1 b = encrypt_of_seeds p2 x2 b
     /\ decrypt_of_seeds junk p1 x1 b = decrypt_of_seeds junk p2 x2 b)
    /\ forall k1 k2 : str,
         sha256_to_int k1 (lit "perm") = Ok p1 ->
         sha256_to_int k1 (lit "xor") = Ok x1 ->
         sha256_to_int k2 (lit "perm") = Ok p2 ->
         sha256_to_int k2 (lit "xor") = Ok x2 ->
         generate_permutation n k1 = generate_permutation n k2
         /\ generate_keystream n k1 = generate_keystream n k2
         /\ encrypt_bytes b k1 = encrypt_bytes b k2
         /\ decrypt_bytes junk b k1 = decrypt_bytes junk b k2.
Proof.
  intros Hp Hx n b junk.
  assert (He : encrypt_of_seeds p1 x1 b = encrypt_of_seeds p2 x2 b).
  { unfold encrypt_of_seeds.
    rewrite (permutation_of_seed_low_bits p1 p2 _ Hp),
      (keystream_of_seed_low_bits x1 x2 _ Hx). reflexivity. }
  assert (Hd : decrypt_of_seeds junk p1 x1 b = decrypt_of_seeds junk p2 x2 b).
  { unfold decrypt_of_seeds.
    rewrite (permutation_of_seed_low_bits p1 p2 _ Hp),
      (keystream_of_seed_low_bits x1 x2 _ Hx). reflexivity. }
  split.
  - split; [apply permutation_of_seed_low_bits, Hp |].
    split; [apply keystream_of_seed_low_bits, Hx |].
    split; assumption.
  - intros k1 k2 Hp1 Hx1 Hp2 Hx2.
    rewrite (generate_permutation_of_seed n k1 p1 Hp1),
      (generate_permutation_of_seed n k2 p2 Hp2),
      (generate_keystream_of_seed n k1 x1 Hx1),
      (generate_keystream_of_seed n k2 x2 Hx2),
      (encrypt_bytes_of_seeds b k1 p1 x1 Hp1 Hx1),
      (encrypt_bytes_of_seeds b k2 p2 x2 Hp2 Hx2),
      (decrypt_bytes_of_seeds junk b k1 p1 x1 Hp1 Hx1),
      (decrypt_bytes_of_seeds junk b k2 p2 x2 Hp2 Hx2).
    split; [apply permutation_of_seed_low_bits, Hp |].
    split; [apply keystream_of_seed_low_bits, Hx |].
    split; assumption.
Qed.

Lemma generate_permutation_in_result (n : nat) (key : str) (h : heap) :
  fst <$> generate_permutation_in n key h = generate_permutation n key.
Proof.
  unfold generate_permutation_in, generate_permutation, new_RandomState, method,
    heap in *.
  destruct (sha256_to_int key (lit "perm")) as [v |]; simpl; [| reflexivity].
  rewrite RandomState_low_bits. simpl.
  rewrite lookup_app_r, Nat.sub_diag by lia. simpl.
  destruct (rs_permutation n _) as [[p st'] |]; reflexivity.
Qed.

Lemma generate_keystream_in_result (n : nat) (key : str) (h : heap) :
  fst <$> generate_keystream_in n key h = generate_keystream n key.
Proof.
  unfold generate_keystream_in, generate_keystream, new_RandomState, method,
    heap in *.
  destruct (sha256_to_int key (lit "xor")) as [v |]; simpl; [| reflexivity].
  rewrite RandomState_low_bits. simpl.
  rewrite lookup_app_r, Nat.sub_diag by lia. reflexivity.
Qed.

Lemma call_twice_result {A : Type} (m : proc A) (pure : result A) (h : heap) :
  (forall h', fst <$> m h' = pure) ->
  fst <$> call_twice m h = (fun a => (a, a)) <$> pure.
Proof.
  intros Hm. unfold call_twice.
  pose proof (Hm h) as H1.
  destruct (m h) as [[a h1] | e]; simpl in *; subst pure; [| reflexivity].
  pose proof (Hm h1) as H2.
  destruct (m h1) as [[a' h2] | e]; simpl in *; [| discriminate].
  injection H2 as ->. reflexivity.
Qed.

(** C5: [generate_permutation] and [generate_keystream] are
    deterministic.  Two calls in a row with the same [n] and key return
    the same sequence twice, the one that the arguments fix; and whatever
    generator objects the process holds when a call is made, in this run
    or another, the sequence is the same. *)
Theorem generators_deterministic (n : nat) (key : str) (h1 h2 : heap) :
  fst <$> call_twice (generate_permutation_in n key) h1
    = (fun p => (p, p)) <$> generate_permutation n key
  /\ fst <$> call_twice (generate_keystream_in n key) h1
    = (fun ks => (ks, ks)) <$> generate_keystream n key
  /\ fst <$> generate_permutation_in n key h1
    = fst <$> generate_permutation_in n key h2
  /\ fst <$> generate_keystream_in n key h1
    = fst <$> generate_keystream_in n key h2.
Proof.
  split; [| split].
  - apply call_twice_result. intros h. apply generate_permutation_in_result.
  - apply call_twice_result. intros h. apply generate_keystream_in_result.
  - rewrite !generate_permutation_in_result, !generate_keystream_in_result.
    split; reflexivity.
Qed.

End Seeds.

(** ** Files *)

Section FileProperties.

Context {G : BitGenerator}.

Variable jpeg_recode : image -> image.

Lemma imread_unreadable (path : str) (fs : filesystem) :
  files fs !! path = None
  \/ (exists raw, files fs !! path = Some (OtherFile raw)) ->
  imread path fs = None.
Proof. unfold imread. intros [-> | [raw ->]]; reflexivity. Qed.

(** C7: when there is no file at the input path, or the file there does
    not decode as an image, [encrypt_image_file] and [decrypt_image_file]
    raise to their caller and leave the file system as it was: nothing is
    written at the output path and no directory is made. *)
Theorem load_failure_writes_nothing (junk : nat -> Z)
    (input_path output_path key : str) (fs : filesystem) :
  files fs !! input_path = None
  \/ (exists raw, files fs !! input_path = Some (OtherFile raw)) ->
  encrypt_image_file jpeg_recode input_path output_path key fs
    = (Raise FileNotFoundError, fs)
  /\ decrypt_image_file jpeg_recode junk input_path output_path key fs
    = (Raise FileNotFoundError, fs).
Proof.
  intros H. apply imread_unreadable in H.
  unfold encrypt_image_file, decrypt_image_file, io_bind, read_image_as_bytes.
  rewrite H. split; reflexivity.
Qed.

(** What [save_bytes_as_image] leaves when nothing stands in its way: a
    file written by the encoder that the extension of the path selects. *)
Lemma save_bytes_as_image_writes (flat : list Z) (shape : list nat)
    (dt : dtype) (path : str) (c : codec) (fs : filesystem) :
  foldr Nat.mul 1%nat shape = length flat ->
  files fs !! (match dirname path with [] => lit "." | d => d end) = None ->
  find_encoder path = Some c ->
  let img := Image shape dt flat in
  save_bytes_as_image jpeg_recode flat shape dt path fs
  = (Ok (),
     FS (<[path := ImageFile c (if lossless c then img else jpeg_recode img)]>
           (files fs))
        ({[match dirname path with [] => lit "." | d => d end]} ∪ dirs fs)).
Proof.
  intros Hshape Hdir Henc. simpl.
  unfold save_bytes_as_image, io_bind, io_lift, reshape, makedirs, imwrite.
  rewrite Hshape, Nat.eqb_refl, Hdir. simpl. rewrite Henc. reflexivity.
Qed.

(** A path that ends in ".png" gets the buffer back from the file. *)
Lemma save_png_reads_back (flat : list Z) (shape : list nat) (dt : dtype)
    (path : str) (fs : filesystem) :
  foldr Nat.mul 1%nat shape = length flat ->
  files fs !! (match dirname path with [] => lit "." | d => d end) = None ->
  find_encoder path = Some PNG ->
  imread path (save_bytes_as_image jpeg_recode flat shape dt path fs).2
  = Some (Image shape dt flat).
Proof.
  intros Hshape Hdir Henc.
  rewrite (save_bytes_as_image_writes flat shape dt path PNG fs Hshape Hdir Henc).
  unfold imread. simpl. rewrite lookup_insert_eq. reflexivity.
Qed.

(** C6, on the code: asked to save a 2 by 2 image at "out.jpg",
    [save_bytes_as_image] writes with the JPEG encoder, which is not
    lossless, and reading the file gives what a JPEG encoding makes of the
    image, not the buffer that was saved. *)
Theorem save_bytes_as_image_follows_extension :
  let flat := [10; 20; 30; 40] in
  let img := Image [2; 2]%nat uint8 flat in
  let out := save_bytes_as_image jpeg_recode flat [2; 2]%nat uint8
               (lit "out.jpg") (FS ∅ ∅) in
  out.1 = Ok ()
  /\ files out.2 !! lit "out.jpg" = Some (ImageFile JPEG (jpeg_recode img))
  /\ lossless JPEG = false
  /\ imread (lit "out.jpg") out.2 = Some (jpeg_recode img).
Proof.
  intros flat img out. subst out.
  rewrite (save_bytes_as_image_writes flat [2; 2]%nat uint8 (lit "out.jpg") JPEG).
  - unfold imread. simpl. rewrite lookup_insert_eq. repeat split; reflexivity.
  - reflexivity.
  - apply lookup_empty.
  - vm_compute. reflexivity.
Qed.

End FileProperties.

(** ** The theorems at concrete inputs, with numpy's generator *)

Lemma decrypt_encrypt_identity_witness :
  BitGeneratorLaws mt19937 /\ text (lit "test123")
  /\ exists e,
       encrypt_bytes gradient (lit "test123") = Ok e
       /\ decrypt_bytes (fun _ => 0) e (lit "test123") = Ok gradient.
Proof.
  split; [exact mt19937_laws |]. split; [solve_text |].
  apply (@decrypt_encrypt_identity mt19937 mt19937_laws). solve_text.
Defined.

Lemma encrypt_bytes_positions_witness :
  BitGeneratorLaws mt19937 /\ text (lit "key")
  /\ exists pi ks e,
       generate_permutation (length gradient) (lit "key") = Ok pi
       /\ generate_keystream (length gradient) (lit "key") = Ok ks
       /\ encrypt_bytes gradient (lit "key") = Ok e
       /\ length pi = length gradient /\ length ks = length gradient
       /\ length e = length gradient
       /\ forall i : nat, (i < length gradient)%nat ->
            exists j x y,
              pi !! i = Some j /\ gradient !! Z.to_nat j = Some x /\ 0 <= j
              /\ ks !! i = Some y /\ e !! i = Some (Z.lxor x y).
Proof.
  split; [exact mt19937_laws |]. split; [solve_text |].
  apply (@encrypt_bytes_positions mt19937 mt19937_laws). solve_text.
Defined.

Lemma generate_permutation_bijection_witness :
  BitGeneratorLaws mt19937 /\ text (lit "key")
  /\ exists p,
       generate_permutation 8 (lit "key") = Ok p /\ length p = 8%nat
       /\ NoDup p /\ forall i : Z, i ∈ p <-> 0 <= i < Z.of_nat 8.
Proof.
  split; [exact mt19937_laws |]. split; [solve_text |].
  apply (@generate_permutation_bijection mt19937 mt19937_laws). solve_text.
Defined.

Example generate_permutation_key_8 :
  generate_permutation 8 (lit "key") = Ok [7; 0; 6; 4; 5; 1; 2; 3].
Proof. vm_compute. reflexivity. Qed.

Lemma encrypt_bytes_preserves_length_witness :
  BitGeneratorLaws mt19937 /\ text (lit "abc")
  /\ (exists e, encrypt_bytes [0x42] (lit "abc") = Ok e
                /\ length e = length [0x42])
  /\ encrypt_bytes [] (lit "abc") = Ok []
  /\ decrypt_bytes (fun _ => 0) [] (lit "abc") = Ok []
  /\ generate_permutation 1 (lit "abc") = Ok [0].
Proof.
  split; [exact mt19937_laws |]. split; [solve_text |].
  apply (@encrypt_bytes_preserves_length mt19937 mt19937_laws). solve_text.
Defined.

(** *** Keys that cannot be encoded

    A [str] may hold a lone surrogate, [0xDCFF] here (what [sys.argv]
    gives for the byte [0xFF] of a [--key] that is not UTF-8).  It is not
    empty and each of its code points is one a [str] can hold, and the
    core raises on it. *)

(** C1, as stated, fails at the buffer [[0x42]] and the non-empty
    passphrase [[0xDCFF]]: [encrypt_bytes] raises, so there is no
    encrypted buffer that [decrypt_bytes] could turn back. *)
Lemma decrypt_encrypt_identity_surrogate :
  [0xDCFF] <> [] /\ Forall code_point [0xDCFF]
  /\ encrypt_bytes (G:=mt19937) [0x42] [0xDCFF] = Raise UnicodeEncodeError
  /\ ~ (exists e, encrypt_bytes (G:=mt19937) [0x42] [0xDCFF] = Ok e
                  /\ decrypt_bytes (fun _ => 0) e [0xDCFF] = Ok [0x42]).
Proof.
  assert (H : encrypt_bytes (G:=mt19937) [0x42] [0xDCFF]
              = Raise UnicodeEncodeError) by (vm_compute; reflexivity).
  split; [discriminate |]. split.
  - constructor; [unfold code_point; lia | constructor].
  - split; [exact H |]. intros (e & He & _). rewrite H in He. discriminate He.
Qed.

(** C2, as stated, fails at the buffer [[0x42]] and the passphrase
    [[0xDCFF]]: neither the permutation nor the keystream is derived, and
    [encrypt_bytes] returns no buffer whose positions could be compared
    with them. *)
Lemma encrypt_bytes_positions_surrogate :
  Forall code_point [0xDCFF]
  /\ generate_permutation (G:=mt19937) 1 [0xDCFF] = Raise UnicodeEncodeError
  /\ generate_keystream (G:=mt19937) 1 [0xDCFF] = Raise UnicodeEncodeError
  /\ encrypt_bytes (G:=mt19937) [0x42] [0xDCFF] = Raise UnicodeEncodeError
  /\ ~ (exists pi ks e,
          generate_permutation (G:=mt19937) 1 [0xDCFF] = Ok pi
          /\ generate_keystream (G:=mt19937) 1 [0xDCFF] = Ok ks
          /\ encrypt_bytes (G:=mt19937) [0x42] [0xDCFF] = Ok e).
Proof.
  assert (H : encrypt_bytes (G:=mt19937) [0x42] [0xDCFF]
              = Raise UnicodeEncodeError) by (vm_compute; reflexivity).
  split; [constructor; [unfold code_point; lia | constructor] |].
  split; [vm_compute; reflexivity |]. split; [vm_compute; reflexivity |].
  split; [exact H |].
  intros (pi & ks & e & _ & _ & He). rewrite H in He. discriminate He.
Qed.

(** C4, as stated, fails at [n = 8] and the key [[0xDCFF]]:
    [generate_permutation] raises and returns no sequence. *)
Lemma generate_permutation_bijection_surrogate :
  Forall code_point [0xDCFF]
  /\ generate_permutation (G:=mt19937) 8 [0xDCFF] = Raise UnicodeEncodeError
  /\ ~ (exists p,
          generate_permutation (G:=mt19937) 8 [0xDCFF] = Ok p
          /\ length p = 8%nat /\ NoDup p
          /\ forall i : Z, i ∈ p <-> 0 <= i < 8).
Proof.
  assert (H : generate_permutation (G:=mt19937) 8 [0xDCFF]
              = Raise UnicodeEncodeError) by (vm_compute; reflexivity).
  split; [constructor; [unfold code_point; lia | constructor] |].
  split; [exact H |]. intros (p & Hp & _). rewrite H in Hp. discriminate Hp.
Qed.

(** C8, as stated, fails at the key [[0xDCFF]]: [encrypt_bytes] returns
    no buffer whose length could equal that of [[0x42]], the empty buffer
    is not mapped to the empty buffer but to an error by both
    [encrypt_bytes] and [decrypt_bytes], and no permutation is derived for
    [n = 1]. *)
Lemma encrypt_bytes_preserves_length_surrogate :
  Forall code_point [0xDCFF]
  /\ ~ (exists e, encrypt_bytes (G:=mt19937) [0x42] [0xDCFF] = Ok e
                  /\ length e = length [0x42])
  /\ encrypt_bytes (G:=mt19937) [] [0xDCFF] = Raise UnicodeEncodeError
  /\ decrypt_bytes (G:=mt19937) (fun _ => 0) [] [0xDCFF]
     = Raise UnicodeEncodeError
  /\ generate_permutation (G:=mt19937) 1 [0xDCFF] = Raise UnicodeEncodeError.
Proof.
  assert (H : encrypt_bytes (G:=mt19937) [0x42] [0xDCFF]
              = Raise UnicodeEncodeError) by (vm_compute; reflexivity).
  split; [constructor; [unfold code_point; lia | constructor] |].
  split; [intros (e & He & _); rewrite H in He; discriminate He |].
  repeat split; vm_compute; reflexivity.
Qed.

(** The seeds of "key" are [0x4cf935289bf6af76] under "perm" and
    [0x1955a2d7c4cca362] under "xor"; the seeds compared with them keep
    their low 32 bits and differ in the upper 32. *)
Lemma seed_low_32_bits_decide_witness :
  let p1 := 0x4cf935289bf6af76 in
  let p2 := 0x000000009bf6af76 in
  let x1 := 0x1955a2d7c4cca362 in
  let x2 := 0xffffffffc4cca362 in
  sha256_to_int (lit "key") (lit "perm") = Ok p1
  /\ sha256_to_int (lit "key") (lit "xor") = Ok x1
  /\ p1 <> p2 /\ x1 <> x2
  /\ p1 mod 2 ^ 32 = p2 mod 2 ^ 32 /\ x1 mod 2 ^ 32 = x2 mod 2 ^ 32
  /\ (permutation_of_seed p1 8 = permutation_of_seed p2 8
      /\ keystream_of_seed x1 8 = keystream_of_seed x2 8
      /\ encrypt_of_seeds p1 x1 gradient = encrypt_of_seeds p2 x2 gradient
      /\ decrypt_of_seeds (fun _ => 0) p1 x1 gradient
         = decrypt_of_seeds (fun _ => 0) p2 x2 gradient)
  /\ forall k1 k2 : str,
       sha256_to_int k1 (lit "perm") = Ok p1 ->
       sha256_to_int k1 (lit "xor") = Ok x1 ->
       sha256_to_int k2 (lit "perm") = Ok p2 ->
       sha256_to_int k2 (lit "xor") = Ok x2 ->
       generate_permutation 8 k1 = generate_permutation 8 k2
       /\ generate_keystream 8 k1 = generate_keystream 8 k2
       /\ encrypt_bytes gradient k1 = encrypt_bytes gradient k2
       /\ decrypt_bytes (fun _ => 0) gradient k1
          = decrypt_bytes (fun _ => 0) gradient k2.
Proof.
  intros p1 p2 x1 x2.
  split; [vm_compute; reflexivity |]. split; [vm_compute; reflexivity |].
  split; [discriminate |]. split; [discriminate |].
  assert (Hp : p1 mod 2 ^ 32 = p2 mod 2 ^ 32) by reflexivity.
  assert (Hx : x1 mod 2 ^ 32 = x2 mod 2 ^ 32) by reflexivity.
  split; [exact Hp |]. split; [exact Hx |].
  exact (@seed_low_32_bits_decide mt19937 p1 p2 x1 x2 Hp Hx 8%nat gradient
           (fun _ => 0)).
Defined.

(** A seed that shares only its low 32 bits with the seed of "key" gives
    the permutation of "key". *)
Example permutation_of_low_bits_of_key :
  permutation_of_seed 0x000000009bf6af76 8 = Ok [7; 0; 6; 4; 5; 1; 2; 3]
  /\ generate_permutation 8 (lit "key") = Ok [7; 0; 6; 4; 5; 1; 2; 3].
Proof. split; vm_compute; reflexivity. Qed.

Lemma load_failure_writes_nothing_witness :
  let fs := FS {[lit "notes.txt" := OtherFile [104; 105]]} ∅ in
  (files fs !! lit "notes.txt" = None
   \/ exists raw, files fs !! lit "notes.txt" = Some (OtherFile raw))
  /\ encrypt_image_file (G:=mt19937) id (lit "notes.txt") (lit "out.png")
       (lit "key") fs = (Raise FileNotFoundError, fs)
  /\ decrypt_image_file (G:=mt19937) id (fun _ => 0) (lit "notes.txt")
       (lit "out.png") (lit "key") fs = (Raise FileNotFoundError, fs).
Proof.
  intros fs.
  assert (H : files fs !! lit "notes.txt" = None
              \/ exists raw, files fs !! lit "notes.txt" = Some (OtherFile raw)).
  { right. exists [104; 105]. apply lookup_singleton_eq. }
  split; [exact H |].
  exact (@load_failure_writes_nothing mt19937 id (fun _ => 0)
           (lit "notes.txt") (lit "out.png") (lit "key") fs H).
Defined.

(** * Further properties of the core *)

Lemma seq_nth_self (b : list Z) :
  map (fun i => nth i b 0) (seq 0 (length b)) = b.
Proof.
  apply list_eq. intros i. rewrite list_lookup_fmap.
  destruct (decide (i < length b)%nat) as [Hi | Hi].
  - rewrite lookup_seq_lt by exact Hi. simpl. rewrite nth_lookup.
    destruct (lookup_lt_is_Some_2 b i Hi) as [x ->]. reflexivity.
  - rewrite lookup_seq_ge, (lookup_ge_None_2 b i) by lia. reflexivity.
Qed.

(** Gathering along a permutation rearranges the array. *)
Lemma gather_Permutation (b p : list Z) :
  p ≡ₚ arange (length b) -> gather b p ≡ₚ b.
Proof.
  intros Hp. unfold gather. rewrite Hp. unfold arange. rewrite map_map.
  rewrite (map_ext _ (fun i => nth i b 0)) by (intros i; rewrite Nat2Z.id; reflexivity).
  rewrite seq_nth_self. reflexivity.
Qed.

Lemma inverse_bounds (p inv : list Z) (n : nat) :
  p ≡ₚ arange n -> length inv = n ->
  (forall k j : nat, p !! k = Some (Z.of_nat j) -> inv !! j = Some (Z.of_nat k)) ->
  Forall (in_bounds n) inv.
Proof.
  intros Hp Hlen Hinv. apply Forall_lookup. intros j x Hx.
  assert (Hj : (j < n)%nat) by (apply lookup_lt_Some in Hx; lia).
  destruct (Permutation_arange_onto p n j Hp Hj) as (k & Hk & Hpk).
  rewrite (Hinv k j Hpk) in Hx. injection Hx as <-.
  unfold in_bounds. lia.
Qed.

(** Gathering along the inverse and then along the permutation gives the
    array back. *)
Lemma gather_gather_inverse (a p inv : list Z) :
  p ≡ₚ arange (length a) -> length inv = length a ->
  (forall k j : nat, p !! k = Some (Z.of_nat j) -> inv !! j = Some (Z.of_nat k)) ->
  gather (gather a inv) p = a.
Proof.
  intros Hp Hlen Hinv.
  pose proof (Permutation_arange_length p _ Hp) as Hplen.
  pose proof (Permutation_arange_bounds p _ Hp) as Hb.
  apply list_eq. intros i. unfold gather at 1. rewrite list_lookup_fmap.
  destruct (decide (i < length a)%nat) as [Hi | Hi].
  - destruct (lookup_lt_is_Some_2 p i) as [pj Hpj]; [lia |].
    rewrite Hpj. simpl.
    rewrite Forall_lookup in Hb. specialize (Hb i pj Hpj). unfold in_bounds in Hb.
    assert (Hpj' : p !! i = Some (Z.of_nat (Z.to_nat pj))) by (rewrite Z2Nat.id; [exact Hpj | lia]).
    pose proof (Hinv i (Z.to_nat pj) Hpj') as Hi'.
    unfold gather. rewrite nth_lookup, list_lookup_fmap, Hi'. simpl.
    rewrite Nat2Z.id, nth_lookup.
    destruct (lookup_lt_is_Some_2 a i Hi) as [x ->]. reflexivity.
  - rewrite (lookup_ge_None_2 p i), (lookup_ge_None_2 a i) by lia. reflexivity.
Qed.

Lemma lxor_byte (x y : Z) : is_byte x -> is_byte y -> is_byte (Z.lxor x y).
Proof.
  unfold is_byte. intros Hx Hy. split.
  - apply Z.lxor_nonneg. lia.
  - destruct (Z.eq_dec (Z.lxor x y) 0) as [-> | Hne]; [lia |].
    assert (Hpos : 0 < Z.lxor x y) by (pose proof (proj2 (Z.lxor_nonneg x y)); lia).
    apply Z.log2_lt_pow2 with (b := 8) in Hpos as Hiff. apply Hiff.
    eapply Z.le_lt_trans; [apply Z.log2_lxor; lia |].
    apply Z.max_lub_lt.
    + destruct (Z.eq_dec x 0) as [-> | ?]; [simpl; lia |].
      apply Z.log2_lt_pow2; lia.
    + destruct (Z.eq_dec y 0) as [-> | ?]; [simpl; lia |].
      apply Z.log2_lt_pow2; lia.
Qed.

Lemma zip_with_lxor_bytes (a b : list Z) :
  Forall is_byte a -> Forall is_byte b -> Forall is_byte (zip_with Z.lxor a b).
Proof.
  intros Ha. revert b. induction Ha as [| x a Hx _ IH]; intros b Hb; simpl;
    [constructor |].
  destruct Hb as [| y b Hy Hb]; [constructor |].
  constructor; [apply lxor_byte; assumption | apply IH, Hb].
Qed.

Lemma gather_bytes (b idx : list Z) : Forall is_byte b -> Forall is_byte (gather b idx).
Proof.
  intros Hb. unfold gather. apply Forall_map, Forall_forall. intros i _. simpl.
  destruct (nth_in_or_default (Z.to_nat i) b 0) as [Hin | ->].
  - rewrite Forall_forall in Hb. apply Hb, list_elem_of_In, Hin.
  - unfold is_byte. lia.
Qed.

Lemma nth_zip_with_lxor (a b : list Z) (i : nat) :
  length a = length b ->
  nth i (zip_with Z.lxor a b) 0 = Z.lxor (nth i a 0) (nth i b 0).
Proof.
  revert b i. induction a as [| x a IH]; intros [| y b] i H; simpl in *;
    try discriminate.
  - destruct i; reflexivity.
  - destruct i; [reflexivity |]. apply IH. congruence.
Qed.

Lemma zip_with_lxor_gather (b1 b2 p : list Z) :
  length b1 = length b2 ->
  zip_with Z.lxor (gather b1 p) (gather b2 p) = gather (zip_with Z.lxor b1 b2) p.
Proof.
  intros H. unfold gather. induction p as [| i p IH]; simpl; [reflexivity |].
  rewrite IH, nth_zip_with_lxor by exact H. reflexivity.
Qed.

Lemma zip_with_lxor_common (a b k : list Z) :
  length a = length k -> length b = length k ->
  zip_with Z.lxor (zip_with Z.lxor a k) (zip_with Z.lxor b k) = zip_with Z.lxor a b.
Proof.
  revert b k. induction a as [| x a IH]; intros [| y b] [| z k] Ha Hb;
    simpl in *; try discriminate; [reflexivity |].
  rewrite IH by congruence. f_equal.
  rewrite (Z.lxor_comm y z), Z.lxor_assoc, <- (Z.lxor_assoc z z y),
    Z.lxor_nilpotent, Z.lxor_0_l. reflexivity.
Qed.

Lemma uint8_fill_prefix {G : BitGenerator} (n m bcnt : nat) (buf : Z)
    (st : bitgen_state) :
  take n (uint8_fill (n + m) bcnt buf st).1 = (uint8_fill n bcnt buf st).1.
Proof.
  revert bcnt buf st. induction n as [| n IH]; intros bcnt buf st; simpl.
  - apply take_0.
  - destruct (buffered_uint8 bcnt buf st) as [b [[bcnt' buf'] st']].
    specialize (IH bcnt' buf' st').
    destruct (uint8_fill (n + m) bcnt' buf' st') as [rest st''].
    destruct (uint8_fill n bcnt' buf' st') as [rest' st'''].
    simpl in *. rewrite IH. reflexivity.
Qed.

Lemma mapR_encode_char_surrogate (s : str) :
  has_surrogate s -> mapR encode_char s = Raise UnicodeEncodeError.
Proof.
  unfold has_surrogate. induction 1 as [c s Hc | c s _ IH]; simpl.
  - rewrite (encode_char_surrogate c Hc). reflexivity.
  - rewrite IH. destruct (encode_char c) as [bs | e] eqn:E; simpl; [reflexivity |].
    unfold encode_char in E.
    repeat match type of E with
           | (if ?b then _ else _) = _ => destruct b
           end; congruence.
Qed.

Lemma sha256_to_int_surrogate (s salt : str) :
  has_surrogate s -> sha256_to_int s salt = Raise UnicodeEncodeError.
Proof.
  intros Hs. unfold sha256_to_int, encode_utf8.
  rewrite mapR_encode_char_surrogate; [reflexivity |].
  apply Exists_app. right. exact Hs.
Qed.

Section CoreExtras.

Context {G : BitGenerator} {L : BitGeneratorLaws G}.

Lemma generate_permutation_returns (n : nat) (key : str) (p : list Z) :
  generate_permutation n key = Ok p -> p ≡ₚ arange n.
Proof.
  unfold generate_permutation.
  destruct (sha256_to_int key (lit "perm")) as [v |]; simpl; [| discriminate].
  rewrite RandomState_low_bits. simpl.
  destruct (rs_permutation_ok n (bitgen_seed (v mod 2 ^ 32)))
    as (p' & st' & -> & Hp).
  simpl. intros [= <-]. exact Hp.
Qed.

Lemma generate_keystream_returns (n : nat) (key : str) (ks : list Z) :
  generate_keystream n key = Ok ks -> length ks = n /\ Forall is_byte ks.
Proof.
  unfold generate_keystream.
  destruct (sha256_to_int key (lit "xor")) as [v |]; simpl; [| discriminate].
  rewrite RandomState_low_bits. simpl. intros [= <-]. split.
  - apply uint8_fill_length.
  - apply uint8_fill_range.
Qed.

Lemma encrypt_bytes_returns (b e : list Z) (k : str) :
  encrypt_bytes b k = Ok e ->
  exists p ks,
    generate_permutation (length b) k = Ok p
    /\ generate_keystream (length b) k = Ok ks
    /\ p ≡ₚ arange (length b) /\ length ks = length b
    /\ Forall is_byte ks
    /\ e = zip_with Z.lxor (gather b p) ks.
Proof.
  unfold encrypt_bytes.
  destruct (generate_permutation (length b) k) as [p |] eqn:Hgp; simpl;
    [| discriminate].
  destruct (generate_keystream (length b) k) as [ks |] eqn:Hgk; simpl;
    [| discriminate].
  pose proof (generate_permutation_returns _ _ _ Hgp) as Hp.
  destruct (generate_keystream_returns _ _ _ Hgk) as [Hks Hbytes].
  rewrite take_idx_ok by (apply Permutation_arange_bounds, Hp). simpl.
  rewrite bitwise_xor_ok
    by (rewrite gather_length, (Permutation_arange_length p _ Hp), Hks; reflexivity).
  simpl. intros [= <-]. exists p, ks. repeat split; assumption.
Qed.

Lemma encrypt_bytes_length (b e : list Z) (k : str) :
  encrypt_bytes b k = Ok e -> length e = length b.
Proof.
  intros He.
  destruct (encrypt_bytes_returns b e k He) as (p & ks & _ & _ & Hp & Hks & _ & ->).
  rewrite length_zip_with, gather_length, (Permutation_arange_length p _ Hp), Hks.
  lia.
Qed.

(** What [decrypt_bytes] returns for any buffer: the keystream is undone,
    then the bytes are gathered along the inverse permutation. *)
Lemma decrypt_bytes_returns (junk : nat -> Z) (e : list Z) (k : str) :
  text k ->
  exists p ks inv,
    generate_permutation (length e) k = Ok p
    /\ generate_keystream (length e) k = Ok ks
    /\ p ≡ₚ arange (length e) /\ length ks = length e /\ Forall is_byte ks
    /\ length inv = length e
    /\ (forall i j : nat, p !! i = Some (Z.of_nat j) -> inv !! j = Some (Z.of_nat i))
    /\ decrypt_bytes junk e k = Ok (gather (zip_with Z.lxor e ks) inv).
Proof.
  intros Hk.
  destruct (generate_permutation_ok (length e) k Hk) as (p & Hgp & Hp).
  destruct (generate_keystream_ok (length e) k Hk) as (ks & Hgk & Hks & Hbytes).
  destruct (put_idx_inverse junk p (length e) Hp) as (inv & Hput & Hinv & Hat).
  exists p, ks, inv. repeat split; try assumption.
  unfold decrypt_bytes. rewrite Hgk. simpl.
  rewrite bitwise_xor_ok by (rewrite Hks; reflexivity). simpl.
  rewrite Hgp. simpl. rewrite Hput. simpl.
  rewrite take_idx_ok; [reflexivity |].
  rewrite length_zip_with, Hks, Nat.min_id.
  apply (inverse_bounds p inv (length e) Hp Hinv Hat).
Qed.

(** X1: for every buffer [e] and every key that is text, [decrypt_bytes]
    returns a buffer of the length of [e] (no key is refused as wrong),
    and encrypting that buffer under the same key gives [e] back. *)
Theorem encrypt_decrypt_identity (junk : nat -> Z) (e : list Z) (k : str) :
  text k ->
  exists b,
    decrypt_bytes junk e k = Ok b /\ length b = length e
    /\ encrypt_bytes b k = Ok e.
Proof.
  intros Hk.
  destruct (decrypt_bytes_returns junk e k Hk)
    as (p & ks & inv & Hgp & Hgk & Hp & Hks & _ & Hinv & Hat & Hd).
  assert (Hx : length (zip_with Z.lxor e ks) = length e)
    by (rewrite length_zip_with, Hks; lia).
  assert (Hlen : length (gather (zip_with Z.lxor e ks) inv) = length e)
    by (rewrite gather_length; exact Hinv).
  eexists. split; [exact Hd |]. split; [exact Hlen |].
  unfold encrypt_bytes. rewrite Hlen, Hgp, Hgk. simpl.
  rewrite take_idx_ok by (rewrite Hlen; apply Permutation_arange_bounds, Hp).
  simpl.
  rewrite gather_gather_inverse by (rewrite ?Hx; assumption).
  rewrite bitwise_xor_ok by (rewrite Hx, Hks; reflexivity). simpl.
  rewrite zip_with_lxor_cancel by (rewrite Hks; reflexivity). reflexivity.
Qed.

(** X2: under one key, two buffers that [encrypt_bytes] maps to the same
    result are the same buffer. *)
Theorem encrypt_bytes_injective (b1 b2 e : list Z) (k : str) :
  encrypt_bytes b1 k = Ok e -> encrypt_bytes b2 k = Ok e -> b1 = b2.
Proof.
  intros H1 H2.
  pose proof (encrypt_bytes_length _ _ _ H1) as L1.
  pose proof (encrypt_bytes_length _ _ _ H2) as L2.
  destruct (encrypt_bytes_returns b1 e k H1)
    as (p1 & ks1 & Hgp1 & Hgk1 & Hp1 & Hks1 & _ & E1).
  destruct (encrypt_bytes_returns b2 e k H2)
    as (p2 & ks2 & Hgp2 & Hgk2 & Hp2 & Hks2 & _ & E2).
  pose proof (decrypt_bytes_ok (fun _ => 0) b1 p1 ks1 k Hgp1 Hgk1 Hp1 Hks1) as D1.
  pose proof (decrypt_bytes_ok (fun _ => 0) b2 p2 ks2 k Hgp2 Hgk2 Hp2 Hks2) as D2.
  rewrite <- E1 in D1. rewrite <- E2 in D2. congruence.
Qed.

(** X3: on a buffer of bytes and a key that is text, [encrypt_bytes] and
    [decrypt_bytes] return buffers of bytes: every element is in
    [0, 256). *)
Theorem transform_keeps_bytes (junk : nat -> Z) (b : list Z) (k : str) :
  text k -> Forall is_byte b ->
  (exists e, encrypt_bytes b k = Ok e /\ Forall is_byte e)
  /\ (exists d, decrypt_bytes junk b k = Ok d /\ Forall is_byte d).
Proof.
  intros Hk Hb. split.
  - destruct (encrypt_bytes_ok b k Hk) as (p & ks & _ & Hgk & _ & _ & He).
    destruct (generate_keystream_returns _ _ _ Hgk) as [_ Hbytes].
    eexists. split; [exact He |].
    apply zip_with_lxor_bytes; [apply gather_bytes, Hb | exact Hbytes].
  - destruct (decrypt_bytes_returns junk b k Hk)
      as (p & ks & inv & _ & _ & _ & _ & Hbytes & _ & _ & Hd).
    eexists. split; [exact Hd |].
    apply gather_bytes, zip_with_lxor_bytes; assumption.
Qed.

(** X4: XORing the keystream out of what [encrypt_bytes] returns leaves a
    rearrangement of the input: every value occurs as often as in the
    buffer that was encrypted. *)
Theorem encrypt_bytes_rearranges (b e : list Z) (k : str) :
  encrypt_bytes b k = Ok e ->
  exists ks,
    generate_keystream (length b) k = Ok ks /\ zip_with Z.lxor e ks ≡ₚ b.
Proof.
  intros He.
  destruct (encrypt_bytes_returns b e k He)
    as (p & ks & _ & Hgk & Hp & Hks & _ & ->).
  exists ks. split; [exact Hgk |].
  rewrite zip_with_lxor_cancel
    by (rewrite gather_length, (Permutation_arange_length p _ Hp), Hks; reflexivity).
  apply gather_Permutation, Hp.
Qed.

(** X6: for two buffers of one length encrypted under one key, the XOR of
    the two results is the XOR of the two buffers, gathered along the
    permutation of the key: the keystream drops out. *)
Theorem keystream_cancels (b1 b2 e1 e2 : list Z) (k : str) :
  length b1 = length b2 ->
  encrypt_bytes b1 k = Ok e1 -> encrypt_bytes b2 k = Ok e2 ->
  exists p,
    generate_permutation (length b1) k = Ok p
    /\ zip_with Z.lxor e1 e2 = gather (zip_with Z.lxor b1 b2) p.
Proof.
  intros Hlen H1 H2.
  destruct (encrypt_bytes_returns b1 e1 k H1)
    as (p1 & ks1 & Hgp1 & Hgk1 & Hp1 & Hks1 & _ & ->).
  destruct (encrypt_bytes_returns b2 e2 k H2)
    as (p2 & ks2 & Hgp2 & Hgk2 & Hp2 & Hks2 & _ & ->).
  rewrite <- Hlen in Hgp2, Hgk2.
  assert (p2 = p1) as -> by congruence.
  assert (ks2 = ks1) as -> by congruence.
  exists p1. split; [exact Hgp1 |].
  pose proof (Permutation_arange_length p1 _ Hp1) as Hpl.
  rewrite zip_with_lxor_common
    by (rewrite gather_length, Hpl; congruence).
  apply zip_with_lxor_gather, Hlen.
Qed.

End CoreExtras.

(** X5: the keystream of a key for [n] bytes is the first [n] bytes of
    its keystream for [n + m] bytes; for a key that cannot be encoded
    both calls raise alike. *)
Theorem generate_keystream_prefix {G : BitGenerator} (n m : nat) (key : str) :
  take n <$> generate_keystream (n + m) key = generate_keystream n key.
Proof.
  unfold generate_keystream.
  destruct (sha256_to_int key (lit "xor")) as [v |]; simpl; [| reflexivity].
  rewrite RandomState_low_bits. simpl. f_equal. apply uint8_fill_prefix.
Qed.

(** X7: a key that holds a surrogate code point makes
    [generate_permutation], [generate_keystream], [encrypt_bytes] and
    [decrypt_bytes] raise [UnicodeEncodeError], for every length and
    buffer. *)
Theorem surrogate_key_raises {G : BitGenerator} (junk : nat -> Z) (n : nat)
    (b : list Z) (k : str) :
  has_surrogate k ->
  generate_permutation n k = Raise UnicodeEncodeError
  /\ generate_keystream n k = Raise UnicodeEncodeError
  /\ encrypt_bytes b k = Raise UnicodeEncodeError
  /\ decrypt_bytes junk b k = Raise UnicodeEncodeError.
Proof.
  intros Hk.
  assert (Hp : forall n, generate_permutation n k = Raise UnicodeEncodeError).
  { intros n'. unfold generate_permutation.
    rewrite (sha256_to_int_surrogate k _ Hk). reflexivity. }
  assert (Hx : forall n, generate_keystream n k = Raise UnicodeEncodeError).
  { intros n'. unfold generate_keystream.
    rewrite (sha256_to_int_surrogate k _ Hk). reflexivity. }
  split; [apply Hp |]. split; [apply Hx |].
  unfold encrypt_bytes, decrypt_bytes. rewrite Hp, Hx. split; reflexivity.
Qed.

(** * Further properties of the file operations *)

Lemma image_eta (img : image) :
  Image (img_shape img) (img_dtype img) (img_flat img) = img.
Proof. destruct img. reflexivity. Qed.

Section FileExtras.

Context {G : BitGenerator}.

Variable jpeg_recode : image -> image.

Lemma read_then (A : Type) (input_path : str) (fs : filesystem) (img : image)
    (k : image * list nat * dtype -> io A) :
  imread input_path fs = Some img ->
  io_bind (read_image_as_bytes input_path) k fs
  = k (img, img_shape img, img_dtype img) fs.
Proof.
  intros H. unfold io_bind, read_image_as_bytes. rewrite H. reflexivity.
Qed.

(** X8: with a readable input and a key that holds a surrogate code
    point, both file operations raise [UnicodeEncodeError] and leave the
    file system as it was: no directory is made and nothing is written. *)
Theorem surrogate_key_writes_nothing (junk : nat -> Z)
    (input_path output_path key : str) (fs : filesystem) (img : image) :
  imread input_path fs = Some img -> has_surrogate key ->
  encrypt_image_file jpeg_recode input_path output_path key fs
    = (Raise UnicodeEncodeError, fs)
  /\ decrypt_image_file jpeg_recode junk input_path output_path key fs
    = (Raise UnicodeEncodeError, fs).
Proof.
  intros Hin Hk.
  assert (He : encrypt_bytes (img_flat img) key = Raise UnicodeEncodeError).
  { unfold encrypt_bytes, generate_permutation.
    rewrite (sha256_to_int_surrogate key _ Hk). reflexivity. }
  assert (Hd : decrypt_bytes junk (img_flat img) key = Raise UnicodeEncodeError).
  { unfold decrypt_bytes, generate_keystream.
    rewrite (sha256_to_int_surrogate key _ Hk). reflexivity. }
  unfold encrypt_image_file, decrypt_image_file.
  rewrite !(read_then _ _ _ _ _ Hin). unfold io_bind, io_lift.
  rewrite He, Hd. split; reflexivity.
Qed.

Context {L : BitGeneratorLaws G}.

Lemma save_bytes_as_image_run (flat : list Z) (shape : list nat) (dt : dtype)
    (out : str) (fs : filesystem) :
  foldr Nat.mul 1%nat shape = length flat ->
  files fs !! out_dir out = None ->
  save_bytes_as_image jpeg_recode flat shape dt out fs
  = match find_encoder out with
    | Some c =>
        (Ok (),
         FS (<[out := ImageFile c (if lossless c then Image shape dt flat
                                   else jpeg_recode (Image shape dt flat))]>
               (files fs))
            ({[out_dir out]} ∪ dirs fs))
    | None => (Raise cv2_error, FS (files fs) ({[out_dir out]} ∪ dirs fs))
    end.
Proof.
  intros Hshape Hdir.
  unfold save_bytes_as_image, io_bind, io_lift, reshape, makedirs, imwrite,
    io_raise, io_ret.
  rewrite Hshape, Nat.eqb_refl. simpl.
  change (match dirname out with [] => lit "." | d => d end) with (out_dir out).
  rewrite Hdir. simpl. destruct (find_encoder out); reflexivity.
Qed.

(** X14: when the directory of the output path is taken by a file, the
    input decodes to an image of 8-bit or 16-bit unsigned integers (the
    images of this model) and the key is text, both file operations
    raise [FileExistsError] and leave the file system as it was. *)
Theorem blocked_directory_writes_nothing (junk : nat -> Z)
    (input_path output_path key : str) (fs : filesystem) (img : image)
    (f : file) :
  imread input_path fs = Some img -> well_formed img -> text key ->
  files fs !! out_dir output_path = Some f ->
  encrypt_image_file jpeg_recode input_path output_path key fs
    = (Raise FileExistsError, fs)
  /\ decrypt_image_file jpeg_recode junk input_path output_path key fs
    = (Raise FileExistsError, fs).
Proof.
  intros Hin Hwf Hk Hdir.
  assert (Hsave : forall flat, length flat = length (img_flat img) ->
            save_bytes_as_image jpeg_recode flat (img_shape img) (img_dtype img)
              output_path fs = (Raise FileExistsError, fs)).
  { intros flat Hlen.
    unfold save_bytes_as_image, io_bind, io_lift, reshape, makedirs, io_raise.
    unfold well_formed in Hwf. rewrite Hwf, Hlen, Nat.eqb_refl. simpl.
    change (match dirname output_path with [] => lit "." | d => d end)
      with (out_dir output_path).
    rewrite Hdir. reflexivity. }
  unfold encrypt_image_file, decrypt_image_file.
  rewrite !(read_then _ _ _ _ _ Hin). unfold io_bind, io_lift.
  destruct (encrypt_bytes_ok (img_flat img) key Hk)
    as (p & ks & _ & _ & Hp & Hks & ->).
  destruct (decrypt_bytes_returns junk (img_flat img) key Hk)
    as (p' & ks' & inv & _ & _ & _ & Hks' & _ & Hinv & _ & ->).
  split; apply Hsave.
  - rewrite length_zip_with, gather_length,
      (Permutation_arange_length p _ Hp), Hks. lia.
  - rewrite gather_length. exact Hinv.
Qed.

End FileExtras.

(** ** Round trips through files *)

Lemma after_last_app (c : Z) (x t : str) :
  after_last c t = None -> after_last c (x ++ c :: t) = Some t.
Proof.
  intros Ht. induction x as [| a x IH]; simpl.
  - rewrite Ht, Z.eqb_refl. reflexivity.
  - rewrite IH. reflexivity.
Qed.

(** A path that ends in ".png" is written by the PNG encoder. *)
Lemma find_encoder_png (x : str) : find_encoder (x ++ lit ".png") = Some PNG.
Proof.
  unfold find_encoder.
  change (lit ".png") with (dot :: lit "png").
  rewrite after_last_app by reflexivity. reflexivity.
Qed.

Lemma path_join_suffix (a pre name suf : str) :
  exists x, path_join a (pre ++ name ++ suf) = x ++ suf.
Proof.
  unfold path_join.
  destruct (from_option _ false (head (pre ++ name ++ suf))).
  - exists (pre ++ name). rewrite <- app_assoc. reflexivity.
  - destruct (last a) as [l |]; [destruct (l =? slash) |].
    + exists (a ++ pre ++ name). rewrite <- !app_assoc. reflexivity.
    + exists (a ++ [slash] ++ pre ++ name). rewrite <- !app_assoc. reflexivity.
    + exists (a ++ pre ++ name). rewrite <- !app_assoc. reflexivity.
Qed.

Lemma mkstemp_inner_returns (tries : nat) (dir pre suf : str)
    (names rest : list str) (file : str) (fs fs' : filesystem) :
  mkstemp_inner tries dir pre suf names fs = (Ok (file, rest), fs') ->
  files fs !! file = None
  /\ fs' = FS (<[file := OtherFile []]> (files fs)) (dirs fs)
  /\ exists x, file = x ++ suf.
Proof.
  revert names. induction tries as [| tries IH]; intros names H;
    [discriminate |].
  destruct names as [| name names]; [discriminate |]. simpl in H.
  destruct (decide (dir ∈ dirs fs)); [| discriminate].
  destruct (files fs !! path_join dir (pre ++ name ++ suf)) eqn:E;
    [apply (IH _ H) |].
  destruct (decide (path_join dir (pre ++ name ++ suf) ∈ dirs fs));
    [apply (IH _ H) |].
  injection H as <- <- <-. repeat split; [exact E |].
  apply path_join_suffix.
Qed.

Lemma NamedTemporaryFile_returns (tmpdir suffix : str) (names rest : list str)
    (file : str) (fs fs' : filesystem) :
  NamedTemporaryFile tmpdir suffix names fs = (Ok (file, rest), fs') ->
  files fs !! file = None
  /\ fs' = FS (<[file := OtherFile []]> (files fs)) (dirs fs)
  /\ exists x, file = x ++ suffix.
Proof. unfold NamedTemporaryFile. apply mkstemp_inner_returns. Qed.

Lemma prog_bind_run_io {A B : Type} (m : io A) (k : A -> prog B)
    (fs fs' : filesystem) (out : list str) (a : A) :
  m fs = (Ok a, fs') -> prog_bind (run_io m) k (fs, out) = k a (fs', out).
Proof. intros H. unfold prog_bind, run_io. cbn [fst snd]. rewrite H. reflexivity. Qed.

Section RoundTrips.

Context {G : BitGenerator} {L : BitGeneratorLaws G}.

Variable jpeg_recode : image -> image.

(** The file system after [encrypt_image_file] to [enc] and then
    [decrypt_image_file] from [enc] to [dec], both written as PNG. *)
Lemma file_round_trip_run (junk : nat -> Z) (input_path enc dec key : str)
    (fs : filesystem) (img : image) :
  imread input_path fs = Some img -> well_formed img -> text key ->
  find_encoder enc = Some PNG -> find_encoder dec = Some PNG ->
  files fs !! out_dir enc = None -> files fs !! out_dir dec = None ->
  out_dir dec <> enc ->
  exists e fs1,
    encrypt_bytes (img_flat img) key = Ok e
    /\ fs1 = FS (<[enc := ImageFile PNG (Image (img_shape img) (img_dtype img) e)]>
                   (files fs))
                ({[out_dir enc]} ∪ dirs fs)
    /\ encrypt_image_file jpeg_recode input_path enc key fs = (Ok (), fs1)
    /\ decrypt_image_file jpeg_recode junk enc dec key fs1
       = (Ok (),
          FS (<[dec := ImageFile PNG img]> (files fs1))
             ({[out_dir dec]} ∪ dirs fs1)).
Proof.
  intros Hin Hwf Hk Hc1 Hc2 Hd1 Hd2 Hne.
  destruct (encrypt_bytes_ok (img_flat img) key Hk)
    as (p & ks & Hgp & Hgk & Hp & Hks & He).
  assert (Hlen : length (zip_with Z.lxor (gather (img_flat img) p) ks)
                 = length (img_flat img)).
  { rewrite length_zip_with, gather_length,
      (Permutation_arange_length p _ Hp), Hks. lia. }
  unfold well_formed in Hwf.
  eexists. eexists. split; [exact He |]. split; [reflexivity |]. split.
  - unfold encrypt_image_file. rewrite (read_then _ _ _ _ _ Hin).
    unfold io_bind at 1, io_lift. rewrite He.
    rewrite save_bytes_as_image_run, Hc1 by congruence. reflexivity.
  - unfold decrypt_image_file.
    erewrite read_then
      by (unfold imread; simpl; rewrite lookup_insert_eq; reflexivity).
    simpl. unfold io_bind at 1, io_lift.
    rewrite (decrypt_bytes_ok junk (img_flat img) p ks key Hgp Hgk Hp Hks).
    rewrite save_bytes_as_image_run, Hc2.
    + rewrite image_eta. reflexivity.
    + exact Hwf.
    + simpl. rewrite lookup_insert_ne by congruence. exact Hd2.
Qed.

(** X13: when the file at [image_path] decodes to an image of 8-bit or
    16-bit unsigned integers (the images of this model; it has at least
    one element and its shape accounts for all of them), the key is text,
    [tempfile] hands out two names and their directories are not taken
    by files, [round_trip_test] returns [True], prints
    "Round-trip equality: True" and leaves the image at [image_path] as
    it was. *)
Theorem round_trip_test_true (tmpdir : str) (names rest rest' : list str)
    (junk : nat -> Z) (image_path key enc dec : str)
    (fs fs1 fs2 : filesystem) (out : list str) (img : image) :
  imread image_path fs = Some img -> well_formed img ->
  img_flat img <> [] -> text key ->
  NamedTemporaryFile tmpdir (lit ".png") names fs = (Ok (enc, rest), fs1) ->
  NamedTemporaryFile tmpdir (lit ".png") rest fs1 = (Ok (dec, rest'), fs2) ->
  files fs2 !! out_dir enc = None -> files fs2 !! out_dir dec = None ->
  exists fs',
    round_trip_test jpeg_recode tmpdir names junk image_path key (fs, out)
    = (Ok true, (fs', out ++ [lit "Round-trip equality: True"]))
    /\ imread image_path fs' = Some img.
Proof.
  intros Hin Hwf Hnonempty Hk H1 H2 Hd1 Hd2.
  destruct (NamedTemporaryFile_returns _ _ _ _ _ _ _ H1) as (Hf1 & E1 & x1 & Hx1).
  destruct (NamedTemporaryFile_returns _ _ _ _ _ _ _ H2) as (Hf2 & E2 & x2 & Hx2).
  assert (Hfile : files fs !! image_path <> None).
  { unfold imread in Hin. destruct (files fs !! image_path); [discriminate |].
    discriminate. }
  assert (Hne1 : image_path <> enc) by (intros ->; contradiction).
  assert (Hne2 : image_path <> dec).
  { intros ->. subst fs1. simpl in Hf2.
    rewrite lookup_insert_ne in Hf2 by congruence. contradiction. }
  assert (Hne3 : enc <> dec).
  { intros ->. subst fs1. simpl in Hf2.
    rewrite lookup_insert_eq in Hf2. discriminate. }
  assert (Henc2 : files fs2 !! enc = Some (OtherFile [])).
  { subst fs2 fs1. simpl.
    rewrite lookup_insert_ne by congruence. apply lookup_insert_eq. }
  assert (Hin2 : imread image_path fs2 = Some img).
  { unfold imread in *. subst fs2 fs1. simpl.
    rewrite !lookup_insert_ne by congruence. exact Hin. }
  destruct (file_round_trip_run junk image_path enc dec key fs2 img
              Hin2 Hwf Hk) as (e & fs3 & _ & E3 & Hr1 & Hr2);
    try assumption.
  { rewrite Hx1. apply find_encoder_png. }
  { rewrite Hx2. apply find_encoder_png. }
  { intros Heq. rewrite Heq in Hd2. congruence. }
  eexists.
  unfold round_trip_test.
  rewrite (prog_bind_run_io _ _ _ _ _ _ H1). cbn [fst snd].
  rewrite (prog_bind_run_io _ _ _ _ _ _ H2). cbn [fst snd].
  rewrite (prog_bind_run_io _ _ _ _ _ _ Hr1).
  rewrite (prog_bind_run_io _ _ _ _ _ _ Hr2). cbn [fst snd].
  assert (Hgot : forall d, imread dec
            (FS (<[dec := ImageFile PNG img]> (files fs3)) d) = Some img).
  { intros d. unfold imread. cbn [files]. rewrite lookup_insert_eq. reflexivity. }
  assert (Horig : forall d, imread image_path
            (FS (<[dec := ImageFile PNG img]> (files fs3)) d) = Some img).
  { intros d. unfold imread in *. subst fs3. cbn [files] in *.
    rewrite !lookup_insert_ne by congruence. exact Hin2. }
  rewrite Hgot, Horig. unfold array_equal.
  rewrite bool_decide_eq_true_2 by (split; reflexivity).
  split; [reflexivity | apply Horig].
Qed.

End RoundTrips.

(** ** The further properties at concrete inputs *)

Ltac evaluate := vm_compute; reflexivity.

Lemma encrypt_decrypt_identity_witness :
  BitGeneratorLaws mt19937 /\ text (lit "xyz")
  /\ exists b,
       decrypt_bytes (fun _ => 0) gradient (lit "xyz") = Ok b
       /\ length b = length gradient
       /\ encrypt_bytes b (lit "xyz") = Ok gradient.
Proof.
  split; [exact mt19937_laws |]. split; [solve_text |].
  apply (@encrypt_decrypt_identity mt19937 mt19937_laws). solve_text.
Defined.

Lemma encrypt_bytes_injective_witness :
  BitGeneratorLaws mt19937
  /\ encrypt_bytes [1; 2; 3; 4; 5; 6; 7; 8] (lit "key")
     = Ok [29; 196; 205; 76; 84; 100; 69; 244]
  /\ [1; 2; 3; 4; 5; 6; 7; 8] = [1; 2; 3; 4; 5; 6; 7; 8].
Proof.
  assert (H : encrypt_bytes [1; 2; 3; 4; 5; 6; 7; 8] (lit "key")
              = Ok [29; 196; 205; 76; 84; 100; 69; 244]) by evaluate.
  split; [exact mt19937_laws |]. split; [exact H |].
  exact (@encrypt_bytes_injective mt19937 mt19937_laws _ _ _ _ H H).
Defined.

Lemma transform_keeps_bytes_witness :
  BitGeneratorLaws mt19937 /\ text (lit "key") /\ Forall is_byte gradient
  /\ (exists e, encrypt_bytes gradient (lit "key") = Ok e /\ Forall is_byte e)
  /\ (exists d, decrypt_bytes (fun _ => 0) gradient (lit "key") = Ok d
                /\ Forall is_byte d).
Proof.
  assert (Hb : Forall is_byte gradient).
  { apply Forall_forall. intros x Hx. unfold gradient in Hx.
    apply list_elem_of_fmap in Hx as (i & -> & Hi).
    apply elem_of_seq in Hi. unfold is_byte. lia. }
  split; [exact mt19937_laws |]. split; [solve_text |]. split; [exact Hb |].
  apply (@transform_keeps_bytes mt19937 mt19937_laws); [solve_text | exact Hb].
Defined.

Lemma encrypt_bytes_rearranges_witness :
  BitGeneratorLaws mt19937
  /\ encrypt_bytes [1; 2; 3; 4; 5; 6; 7; 8] (lit "key")
     = Ok [29; 196; 205; 76; 84; 100; 69; 244]
  /\ exists ks,
       generate_keystream 8 (lit "key") = Ok ks
       /\ zip_with Z.lxor [29; 196; 205; 76; 84; 100; 69; 244] ks
          ≡ₚ [1; 2; 3; 4; 5; 6; 7; 8].
Proof.
  assert (H : encrypt_bytes [1; 2; 3; 4; 5; 6; 7; 8] (lit "key")
              = Ok [29; 196; 205; 76; 84; 100; 69; 244]) by evaluate.
  split; [exact mt19937_laws |]. split; [exact H |].
  exact (@encrypt_bytes_rearranges mt19937 mt19937_laws _ _ _ H).
Defined.

Lemma keystream_cancels_witness :
  BitGeneratorLaws mt19937
  /\ length [1; 2; 3; 4; 5; 6; 7; 8] = length [0; 0; 0; 0; 0; 0; 0; 0]
  /\ encrypt_bytes [1; 2; 3; 4; 5; 6; 7; 8] (lit "key")
     = Ok [29; 196; 205; 76; 84; 100; 69; 244]
  /\ encrypt_bytes [0; 0; 0; 0; 0; 0; 0; 0] (lit "key")
     = Ok [21; 197; 202; 73; 82; 102; 70; 240]
  /\ exists p,
       generate_permutation 8 (lit "key") = Ok p
       /\ zip_with Z.lxor [29; 196; 205; 76; 84; 100; 69; 244]
                          [21; 197; 202; 73; 82; 102; 70; 240]
          = gather (zip_with Z.lxor [1; 2; 3; 4; 5; 6; 7; 8]
                                    [0; 0; 0; 0; 0; 0; 0; 0]) p.
Proof.
  assert (H1 : encrypt_bytes [1; 2; 3; 4; 5; 6; 7; 8] (lit "key")
               = Ok [29; 196; 205; 76; 84; 100; 69; 244]) by evaluate.
  assert (H2 : encrypt_bytes [0; 0; 0; 0; 0; 0; 0; 0] (lit "key")
               = Ok [21; 197; 202; 73; 82; 102; 70; 240]) by evaluate.
  split; [exact mt19937_laws |]. split; [reflexivity |].
  split; [exact H1 |]. split; [exact H2 |].
  exact (@keystream_cancels mt19937 mt19937_laws [1; 2; 3; 4; 5; 6; 7; 8]
           [0; 0; 0; 0; 0; 0; 0; 0] _ _ _ eq_refl H1 H2).
Defined.

Lemma surrogate_key_raises_witness :
  has_surrogate [0x6B; 0xDCFF]
  /\ generate_permutation 8 [0x6B; 0xDCFF] = Raise UnicodeEncodeError
  /\ generate_keystream 8 [0x6B; 0xDCFF] = Raise UnicodeEncodeError
  /\ encrypt_bytes gradient [0x6B; 0xDCFF] = Raise UnicodeEncodeError
  /\ decrypt_bytes (fun _ => 0) gradient [0x6B; 0xDCFF] = Raise UnicodeEncodeError.
Proof.
  assert (H : has_surrogate [0x6B; 0xDCFF])
    by (apply Exists_cons_tl, Exists_cons_hd; reflexivity).
  split; [exact H |].
  exact (@surrogate_key_raises mt19937 (fun _ => 0) 8%nat gradient _ H).
Defined.

Lemma sample_fs_readable : imread (lit "in.png") sample_fs = Some gradient_image.
Proof. unfold imread, sample_fs. simpl. rewrite lookup_singleton_eq. reflexivity. Qed.

Lemma sample_fs_other (p : str) :
  p <> lit "in.png" -> files sample_fs !! p = None.
Proof. intros H. unfold sample_fs. simpl. apply lookup_singleton_ne. congruence. Qed.

Lemma gradient_image_well_formed : well_formed gradient_image.
Proof. reflexivity. Qed.

Lemma surrogate_key_writes_nothing_witness :
  imread (lit "in.png") sample_fs = Some gradient_image
  /\ has_surrogate [0xDCFF]
  /\ encrypt_image_file (G:=mt19937) id (lit "in.png") (lit "out.png") [0xDCFF]
       sample_fs = (Raise UnicodeEncodeError, sample_fs)
  /\ decrypt_image_file (G:=mt19937) id (fun _ => 0) (lit "in.png")
       (lit "out.png") [0xDCFF] sample_fs = (Raise UnicodeEncodeError, sample_fs).
Proof.
  assert (H : has_surrogate [0xDCFF]) by (apply Exists_cons_hd; reflexivity).
  split; [exact sample_fs_readable |]. split; [exact H |].
  exact (@surrogate_key_writes_nothing mt19937 id (fun _ => 0) _ (lit "out.png")
           _ _ _ sample_fs_readable H).
Defined.

Lemma blocked_directory_writes_nothing_witness :
  BitGeneratorLaws mt19937
  /\ imread (lit "in.png") sample_fs = Some gradient_image
  /\ well_formed gradient_image /\ text (lit "key")
  /\ files sample_fs !! out_dir (lit "in.png/out.png")
     = Some (ImageFile PNG gradient_image)
  /\ encrypt_image_file (G:=mt19937) id (lit "in.png") (lit "in.png/out.png")
       (lit "key") sample_fs = (Raise FileExistsError, sample_fs)
  /\ decrypt_image_file (G:=mt19937) id (fun _ => 0) (lit "in.png")
       (lit "in.png/out.png") (lit "key") sample_fs
     = (Raise FileExistsError, sample_fs).
Proof.
  assert (Hk : text (lit "key")) by solve_text.
  assert (Hd : files sample_fs !! out_dir (lit "in.png/out.png")
               = Some (ImageFile PNG gradient_image))
    by (change (out_dir (lit "in.png/out.png")) with (lit "in.png");
        apply lookup_singleton_eq).
  split; [exact mt19937_laws |]. split; [exact sample_fs_readable |].
  split; [exact gradient_image_well_formed |]. split; [exact Hk |].
  split; [exact Hd |].
  exact (@blocked_directory_writes_nothing mt19937 id mt19937_laws (fun _ => 0)
           _ _ _ _ _ _ sample_fs_readable gradient_image_well_formed Hk Hd).
Defined.

Lemma round_trip_test_true_witness :
  let enc := lit "/tmp/tmpk3f9_a2x.png" in
  let dec := lit "/tmp/tmpq0w8zr5m.png" in
  let fs1 := FS (<[enc := OtherFile []]> (files sample_fs)) (dirs sample_fs) in
  let fs2 := FS (<[dec := OtherFile []]> (files fs1)) (dirs fs1) in
  BitGeneratorLaws mt19937
  /\ imread (lit "in.png") sample_fs = Some gradient_image
  /\ well_formed gradient_image /\ img_flat gradient_image <> []
  /\ text (lit "test123")
  /\ NamedTemporaryFile (lit "/tmp") (lit ".png")
       [lit "k3f9_a2x"; lit "q0w8zr5m"] sample_fs
     = (Ok (enc, [lit "q0w8zr5m"]), fs1)
  /\ NamedTemporaryFile (lit "/tmp") (lit ".png") [lit "q0w8zr5m"] fs1
     = (Ok (dec, []), fs2)
  /\ files fs2 !! out_dir enc = None /\ files fs2 !! out_dir dec = None
  /\ exists fs',
       round_trip_test (G:=mt19937) id (lit "/tmp")
         [lit "k3f9_a2x"; lit "q0w8zr5m"] (fun _ => 0) (lit "in.png")
         (lit "test123") (sample_fs, [])
       = (Ok true, (fs', [] ++ [lit "Round-trip equality: True"]))
       /\ imread (lit "in.png") fs' = Some gradient_image.
Proof.
  intros enc dec fs1 fs2.
  assert (Hk : text (lit "test123")) by solve_text.
  assert (H1 : NamedTemporaryFile (lit "/tmp") (lit ".png")
                 [lit "k3f9_a2x"; lit "q0w8zr5m"] sample_fs
               = (Ok (enc, [lit "q0w8zr5m"]), fs1)) by evaluate.
  assert (H2 : NamedTemporaryFile (lit "/tmp") (lit ".png") [lit "q0w8zr5m"] fs1
               = (Ok (dec, []), fs2)) by evaluate.
  assert (Hd : files fs2 !! lit "/tmp" = None).
  { subst fs2 fs1. simpl. rewrite !lookup_insert_ne by discriminate.
    apply sample_fs_other. discriminate. }
  assert (Hne : img_flat gradient_image <> []) by discriminate.
  split; [exact mt19937_laws |]. split; [exact sample_fs_readable |].
  split; [exact gradient_image_well_formed |]. split; [exact Hne |].
  split; [exact Hk |]. split; [exact H1 |]. split; [exact H2 |].
  split; [exact Hd |]. split; [exact Hd |].
  exact (@round_trip_test_true mt19937 mt19937_laws id (lit "/tmp") _ _ _
           (fun _ => 0) (lit "in.png") (lit "test123") enc dec sample_fs fs1 fs2
           [] gradient_image sample_fs_readable gradient_image_well_formed Hne
           Hk H1 H2 Hd Hd).
Defined.
